(** * DD60 font atlas generator: ROM decoding and beam physics pipeline

    A shallow embedding of [rom/decoder.js], [renderers/physics.js] and
    [renderers/gaussianMode.js], with the properties the design document
    states about them.

    JavaScript numbers are IEEE 754 binary64 values.  Quantities the code
    only ever uses as integers (ROM words, grid coordinates, loop counters,
    array indices, buffer sizes, kernel radius) are modelled in [Z];
    quantities the code computes with fractional arithmetic are modelled by
    Rocq's primitive binary64 floats, whose [+ - * /], comparison and
    absolute value are the operations JavaScript performs.  Where the code
    sizes a typed array by [Math.ceil] the model covers finite numbers, and
    a typed array of any finite size can be allocated.  [Math.sin],
    [Math.cos] and [Math.exp] are left to the host. *)

From Stdlib Require Import ZArith List Lia Bool.
From Stdlib Require Import Floats.PrimFloat Floats.SpecFloat Floats.FloatOps.
From Stdlib Require Import Floats.FloatAxioms.
From Stdlib Require Import Strings.String.
From stdpp Require Import base list.

Set Warnings "-inexact-float".

Local Open Scope Z_scope.

(** ** JavaScript operators and host functions *)

Module JS.

(** [ToInt32]: the conversion the bitwise operators apply to an
    integer-valued operand. *)
Definition ToInt32 (n : Z) : Z := (n + 2 ^ 31) mod 2 ^ 32 - 2 ^ 31.

(** [a >> n] for a shift count [0 <= n < 32]. *)
Definition shr (a n : Z) : Z := Z.shiftr (ToInt32 a) n.

(** [a & b]. *)
Definition band (a b : Z) : Z := Z.land (ToInt32 a) (ToInt32 b).

(** [Boolean(n)] of a number. *)
Definition Boolean (n : Z) : bool := negb (n =? 0).

(** Number conversion of an integer: the nearest binary64 value (exact
    below 2^53). *)
Definition of_Z (n : Z) : float := SF2Prim (binary_normalize prec emax n 0 false).

(** [Math.fround]: the rounding a store into a [Float32Array] performs
    (to the nearest binary32 value, ties to even). *)
Definition fround (f : float) : float :=
  match Prim2SF f with
  | S754_finite s m e => SF2Prim (binary_normalize 24 128 (cond_Zopp s (Zpos m)) e s)
  | _ => f
  end.

(** [Math.floor] of a finite number, as the integer it denotes; [None]
    for NaN and the infinities, which [Math.floor] returns unchanged. *)
Definition Math_floor (f : float) : option Z :=
  match Prim2SF f with
  | S754_zero _ => Some 0
  | S754_finite s m e =>
      let v := cond_Zopp s (Zpos m) in
      Some (if 0 <=? e then v * 2 ^ e else v / 2 ^ (- e))
  | _ => None
  end.

(** [Math.ceil] of a finite number, as the integer it denotes.  The code
    takes the ceiling of a number only to size a typed array; NaN and the
    infinities are outside the model there, and 0 stands in for them. *)
Definition Math_ceil (f : float) : Z :=
  match Math_floor (- f)%float with
  | Some n => - n
  | None => 0
  end.


(** [new Float32Array(n)]: [n] zeros. *)
Definition Float32Array_new (n : Z) : list float :=
  replicate (Z.to_nat n) 0%float.

(** [a[i]] read where a number is expected: an index outside the array
    reads [undefined], which arithmetic turns into NaN. *)
Definition Float32Array_get (a : list float) (i : Z) : float :=
  if i <? 0 then nan else default nan (a !! Z.to_nat i).

(** [a[i] = v]: the value is rounded to binary32; a store outside the
    array does nothing. *)
Definition Float32Array_set (a : list float) (i : Z) (v : float) : list float :=
  if i <? 0 then a else <[Z.to_nat i := fround v]> a.

End JS.

(** ** rom/decoder.js *)

(** [VectorCoord]: the tuple [[x, y, beam_intensity]]. *)
Definition VectorCoord : Type := Z * Z * Z.

Definition CDC_CHAR_MAX_COORD : Z := 6.

(** The local variables of [binaryToVector]; [warnings] records the
    coordinates each [console.warn] call reports. *)
Record DecoderLocals : Type := mkLocals {
  currentX : Z;
  currentY : Z;
  beamIntensity : Z;
  horizontalDirection : Z;
  verticalDirection : Z;
  vectorData : list VectorCoord;
  warnings : list (Z * Z)
}.

Definition initialLocals : DecoderLocals :=
  mkLocals 0 0 0 1 1 [] [].

(** The bounds test guarding [vectorData.push]. *)
Definition withinBounds (x y : Z) : bool :=
  (0 <=? x) && (x <=? CDC_CHAR_MAX_COORD) && (0 <=? y) && (y <=? CDC_CHAR_MAX_COORD).

(** One iteration of the [for] loop of [binaryToVector]. *)
Definition decodeRow (st : DecoderLocals) (binary : Z) : DecoderLocals :=
  let V1 := JS.Boolean (JS.band (JS.shr binary 4) 1) in
  let V2 := JS.Boolean (JS.band (JS.shr binary 3) 1) in
  let H1 := JS.Boolean (JS.band (JS.shr binary 2) 1) in
  let H2 := JS.Boolean (JS.band (JS.shr binary 1) 1) in
  let U := JS.Boolean (JS.band binary 1) in
  let '(y, vdir) :=
    if V1 && V2 then (currentY st, - verticalDirection st)
    else if V1 then (currentY st + verticalDirection st, verticalDirection st)
    else if V2 then (currentY st + 2 * verticalDirection st, verticalDirection st)
    else (currentY st, verticalDirection st) in
  let '(x, hdir) :=
    if H1 && H2 then (currentX st, - horizontalDirection st)
    else if H1 then (currentX st + horizontalDirection st, horizontalDirection st)
    else if H2 then (currentX st + 2 * horizontalDirection st, horizontalDirection st)
    else (currentX st, horizontalDirection st) in
  let beam :=
    if U then (if JS.Boolean (beamIntensity st) then 0 else 1)
    else beamIntensity st in
  if withinBounds x y
  then mkLocals x y beam hdir vdir (vectorData st ++ [(x, y, beam)]) (warnings st)
  else mkLocals x y beam hdir vdir (vectorData st) (warnings st ++ [(x, y)]).

(** The loop run over the rows, from given locals. *)
Definition decodeRows (st : DecoderLocals) (binaryData : list Z) : DecoderLocals :=
  fold_left decodeRow binaryData st.

Definition binaryToVector (binaryData : list Z) : list VectorCoord :=
  match binaryData with
  | [] => []
  | _ => vectorData (decodeRows initialLocals binaryData)
  end.

(** The diagnostics [binaryToVector] writes to the console. *)
Definition binaryToVector_warnings (binaryData : list Z) : list (Z * Z) :=
  match binaryData with
  | [] => []
  | _ => warnings (decodeRows initialLocals binaryData)
  end.

(** [vectorData.slice(from, to)] for [0 <= from], [0 <= to]. *)
Definition slice {A} (l : list A) (from to : Z) : list A :=
  take (Z.to_nat (to - from)) (drop (Z.to_nat from) l).

(** First loop of [trimBeamOff]: the first index [>= i] whose beam is 1,
    or [-1]. *)
Fixpoint firstOnFrom (i : Z) (v : list VectorCoord) : Z :=
  match v with
  | [] => -1
  | (_, _, b) :: v' => if b =? 1 then i else firstOnFrom (i + 1) v'
  end.

(** Second loop of [trimBeamOff]: scanning down from the last index, the
    first index whose beam is 1, or [-1]. *)
Fixpoint lastOnUpto (fuel : nat) (i : Z) (v : list VectorCoord) : Z :=
  match fuel with
  | O => -1
  | S fuel' =>
      if i >=? 0 then
        match v !! Z.to_nat i with
        | Some (_, _, b) => if b =? 1 then i else lastOnUpto fuel' (i - 1) v
        | None => -1
        end
      else -1
  end.

Definition trimBeamOff (v : list VectorCoord) : list VectorCoord :=
  match v with
  | [] => []
  | _ =>
      let firstOn := firstOnFrom 0 v in
      if firstOn =? -1 then []
      else
        let lastOn := lastOnUpto (length v) (Z.of_nat (length v) - 1) v in
        slice v firstOn (lastOn + 1)
  end.

(** [curr[0] !== prev[0] || curr[1] !== prev[1] || curr[2] !== prev[2]]. *)
Definition differs (curr prev : VectorCoord) : bool :=
  let '(cx, cy, cb) := curr in
  let '(px, py, pb) := prev in
  negb (cx =? px) || negb (cy =? py) || negb (cb =? pb).

(** One iteration of the loop of [deduplicateAdjacent]; [result] is never
    empty there, it starts as [[vectorData[0]]] and only grows. *)
Definition dedupStep (result : list VectorCoord) (curr : VectorCoord) : list VectorCoord :=
  match last result with
  | Some prev => if differs curr prev then result ++ [curr] else result
  | None => result
  end.

Definition deduplicateAdjacent (v : list VectorCoord) : list VectorCoord :=
  match v with
  | [] => []
  | v0 :: rest => fold_left dedupStep rest [v0]
  end.

Definition simplifyVector (v : list VectorCoord) : list VectorCoord :=
  deduplicateAdjacent v.

(** The ROM table of [rom/binary.js], keyed by display character. *)
Definition RomTable : Type := string -> option (list Z).

Definition getCharacterBinary (cdcRomBinary : RomTable) (char : string) : option (list Z) :=
  match cdcRomBinary char with
  | Some b => Some b
  | None => cdcRomBinary " "%string
  end.

Definition getCharacterVector (cdcRomBinary : RomTable) (char : string) : list VectorCoord :=
  match getCharacterBinary cdcRomBinary char with
  | Some binaryData => binaryToVector binaryData
  | None => []
  end.

(** ** The host's transcendental functions

    [Math.sin], [Math.cos] and [Math.exp] are implementation-approximated;
    the pipeline is modelled over whatever the host provides. *)
Class HostMath : Type := {
  Math_sin : float -> float;
  Math_cos : float -> float;
  Math_exp : float -> float
}.

(** ** renderers/physics.js *)

Definition BASE_CELL_SIZE : float := 8%float.


Record BiquadCoeffs : Type := mkCoeffs {
  b0 : float; b1 : float; b2 : float; a1 : float; a2 : float
}.

Record BiquadState : Type := mkBiquadState {
  x1 : float; x2 : float; y1 : float; y2 : float
}.

Record FilteredPosition : Type := mkPosition {
  x : float; y : float; z : float
}.


Definition createBiquadState (initialValue : float) : BiquadState :=
  mkBiquadState initialValue initialValue initialValue initialValue.

(** [applyBiquad] updates [state] in place; here it returns the output
    together with the shifted state. *)
Definition applyBiquad (input : float) (state : BiquadState) (coeffs : BiquadCoeffs)
  : float * BiquadState :=
  let output :=
    (b0 coeffs * input + b1 coeffs * x1 state + b2 coeffs * x2 state
     - a1 coeffs * y1 state - a2 coeffs * y2 state)%float in
  (output, mkBiquadState input (x1 state) output (y1 state)).

Definition applyIIR (input prev retention : float) : float :=
  ((1 - retention) * input + retention * prev)%float.

(** The [options] argument of [processCharacterPhysics]; an absent
    property is [None]. *)
Record PhysicsOptions : Type := mkOptions {
  yCoeffs : option BiquadCoeffs;
  xGain : option float;
  yGain : option float
}.

(** The variables [processCharacterPhysics] updates while it runs. *)
Record PhysicsLocals : Type := mkPhysics {
  xState : BiquadState;
  yState : BiquadState;
  zState : float;
  filteredPositions : list FilteredPosition
}.

(** Body of the inner [for (let s = 0; s < subsampleFactor; s++)] loop. *)
Definition subsampleStep (scaledX scaledY beam : float)
    (xCoeffs yCoeffs : BiquadCoeffs) (xGain yGain retentionZ : float)
    (st : PhysicsLocals) : PhysicsLocals :=
  let '(outX, xState') := applyBiquad scaledX (xState st) xCoeffs in
  let filteredX := (outX * xGain)%float in
  let '(outY, yState') := applyBiquad scaledY (yState st) yCoeffs in
  let filteredY := (outY * yGain)%float in
  let zState' := applyIIR beam (zState st) retentionZ in
  mkPhysics xState' yState' zState'
    (filteredPositions st ++ [mkPosition filteredX filteredY zState']).

(** Body of the outer [for (const [x, y, beam] of vectorData)] loop. *)
Definition physicsRow (subsampleFactor : Z) (characterScale : float)
    (xCoeffs yCoeffs : BiquadCoeffs) (xGain yGain retentionZ : float)
    (st : PhysicsLocals) (row : VectorCoord) : PhysicsLocals :=
  let '(x, y, beam) := row in
  let scaledX := (JS.of_Z x * characterScale)%float in
  let scaledY := (JS.of_Z y * characterScale)%float in
  Nat.iter (Z.to_nat subsampleFactor)
    (subsampleStep scaledX scaledY (JS.of_Z beam) xCoeffs yCoeffs xGain yGain retentionZ)
    st.

Definition processCharacterPhysics (vectorData : list VectorCoord)
    (subsampleFactor : Z) (xyCoeffs : BiquadCoeffs) (retentionZ characterScale : float)
    (options : PhysicsOptions) : list FilteredPosition :=
  match vectorData with
  | [] => []
  | firstPos :: _ =>
      let xCoeffs := xyCoeffs in
      let yCoeffs := default xyCoeffs (yCoeffs options) in
      let xGain := default 1%float (xGain options) in
      let yGain := default 1%float (yGain options) in
      let '(fx, fy, fbeam) := firstPos in
      let xState := createBiquadState (JS.of_Z fx * characterScale)%float in
      let yState := createBiquadState (JS.of_Z fy * characterScale)%float in
      let zState := JS.of_Z fbeam in
      filteredPositions
        (fold_left
           (physicsRow subsampleFactor characterScale xCoeffs yCoeffs xGain yGain retentionZ)
           vectorData (mkPhysics xState yState zState []))
  end.

(** [scaledToCanvas] returns [{canvasX, canvasY}]. *)
Definition scaledToCanvas
    (scaledX scaledY cellPixelSize characterScale originOffsetX originOffsetY : float)
  : float * float :=
  let pixelsPerUnit := (cellPixelSize / (BASE_CELL_SIZE * characterScale))%float in
  let offsetX := (originOffsetX * characterScale * pixelsPerUnit)%float in
  let offsetY := (originOffsetY * characterScale * pixelsPerUnit)%float in
  let pixelX := (scaledX * pixelsPerUnit)%float in
  let pixelY := (scaledY * pixelsPerUnit)%float in
  let canvasX := (offsetX + pixelX)%float in
  let canvasY := (cellPixelSize - offsetY - pixelY)%float in
  (canvasX, canvasY).

(** ** renderers/gaussianMode.js *)

Definition GAUSSIAN_sigmasCoverage : float := 3%float.

(** The kernel object [{weights, radius, sigma}]. *)
Module Kernel.
Record t : Type := mk {
  weights : list float;
  radius : Z;
  sigma : float
}.
End Kernel.

Definition GaussianKernel : Type := Kernel.t.

(** [for (let k = from; k <= to; k++)]: the values [k] takes. *)
Definition range_incl (from to : Z) : list Z := seqZ from (to - from + 1).

(** [for (let k = 0; k < n; k++)]: the values [k] takes. *)
Definition range_below (n : Z) : list Z := seqZ 0 n.

(** The part of [getGaussianKernel] past the cache test: fill a fresh
    weight table for [sigma]. *)
Definition fillKernel `{HostMath} (sigma : float) (radius : Z) : GaussianKernel :=
  let size := radius * 2 + 1 in
  let twoSigmaSq := (2 * sigma * sigma)%float in
  let weights :=
    fold_left (fun weights dy =>
      fold_left (fun weights dx =>
        let distSq := dx * dx + dy * dy in
        let weight := Math_exp (- JS.of_Z distSq / twoSigmaSq)%float in
        let idx := (dy + radius) * size + (dx + radius) in
        JS.Float32Array_set weights idx weight)
        (range_incl (- radius) radius) weights)
      (range_incl (- radius) radius) (JS.Float32Array_new (size * size)) in
  Kernel.mk weights radius sigma.

(** [getGaussianKernel] reads and writes the module variable
    [gaussianKernel] ([None] is [null]); it returns the kernel and the
    variable's new value. *)
Definition getGaussianKernel `{HostMath} (gaussianKernel : option GaussianKernel)
    (sigma : float) : GaussianKernel * option GaussianKernel :=
  let radius := JS.Math_ceil (sigma * GAUSSIAN_sigmasCoverage)%float in
  let fresh := fillKernel sigma radius in
  match gaussianKernel with
  | Some cached =>
      if (abs (Kernel.sigma cached - sigma) <? 0.001)%float
      then (cached, gaussianKernel)
      else (fresh, Some fresh)
  | None => (fresh, Some fresh)
  end.

(** A sequence of calls, threading the module variable: the kernels
    returned and the final cache. *)
Fixpoint getGaussianKernel_calls `{HostMath} (gaussianKernel : option GaussianKernel)
    (sigmas : list float) : list GaussianKernel * option GaussianKernel :=
  match sigmas with
  | [] => ([], gaussianKernel)
  | s :: rest =>
      let '(k, cache') := getGaussianKernel gaussianKernel s in
      let '(ks, cache'') := getGaussianKernel_calls cache' rest in
      (k :: ks, cache'')
  end.

(** With a NaN or infinite centre [Math.floor] returns the centre
    unchanged and no cell is written: past an infinite start every [px]
    or [py] fails its range test, and with a NaN start none does but the
    store index is NaN, which a typed array ignores. *)
Definition accumulateGaussian (buffer : list float) (width height : Z)
    (cx cy intensity : float) (kernel : GaussianKernel) : list float :=
  let weights := Kernel.weights kernel in
  let radius := Kernel.radius kernel in
  let kernelSize := radius * 2 + 1 in
  match JS.Math_floor cx, JS.Math_floor cy with
  | Some floorX, Some floorY =>
      let startX := floorX - radius in
      let startY := floorY - radius in
      fold_left (fun buffer ky =>
        let py := startY + ky in
        if (py <? 0) || (py >=? height) then buffer
        else
          fold_left (fun buffer kx =>
            let px := startX + kx in
            if (px <? 0) || (px >=? width) then buffer
            else
              let weight := JS.Float32Array_get weights (ky * kernelSize + kx) in
              let bufIdx := py * width + px in
              JS.Float32Array_set buffer bufIdx
                (JS.Float32Array_get buffer bufIdx + intensity * weight)%float)
            (range_below kernelSize) buffer)
        (range_below kernelSize) buffer
  | _, _ => buffer
  end.






(** ** The decoder and the repeat removal as the design document words them *)

Module Reference.

(** Running position, beam state and the two direction signs. *)
Record Beam : Type := mk {
  pos_x : Z;
  pos_y : Z;
  on : bool;
  h_sign : Z;
  v_sign : Z
}.

(** Position (0,0), beam off, both signs +1. *)
Definition start : Beam := mk 0 0 false 1 1.

(** The five flags of a row word, from the most significant: the vertical
    "1" and "2" bits, the horizontal "1" and "2" bits, the beam toggle. *)
Definition v_one (w : Z) : bool := Z.testbit w 4.
Definition v_two (w : Z) : bool := Z.testbit w 3.
Definition h_one (w : Z) : bool := Z.testbit w 2.
Definition h_two (w : Z) : bool := Z.testbit w 1.
Definition toggle (w : Z) : bool := Z.testbit w 0.

(** The rule for one axis: new coordinate and new direction sign. *)
Definition axis (one two : bool) (pos sign : Z) : Z * Z :=
  match one, two with
  | true, true => (pos, - sign)
  | true, false => (pos + 1 * sign, sign)
  | false, true => (pos + 2 * sign, sign)
  | false, false => (pos, sign)
  end.

(** Steps 1 to 3 for one row word. *)
Definition row (b : Beam) (w : Z) : Beam :=
  let '(py, vs) := axis (v_one w) (v_two w) (pos_y b) (v_sign b) in
  let '(px, hs) := axis (h_one w) (h_two w) (pos_x b) (h_sign b) in
  mk px py (if toggle w then negb (on b) else on b) hs vs.

(** Step 4: the sample of a row, the beam state taken after the toggle. *)
Definition sample (b : Beam) : VectorCoord :=
  (pos_x b, pos_y b, if on b then 1 else 0).

(** The sample of every row, in order. *)
Fixpoint rows (b : Beam) (ws : list Z) : list VectorCoord :=
  match ws with
  | [] => []
  | w :: ws' => let b' := row b w in sample b' :: rows b' ws'
  end.

(** The edge case: a sample outside [0,6] on either axis is not emitted. *)
Definition in_grid (s : VectorCoord) : bool :=
  let '(px, py, _) := s in
  (0 <=? px) && (px <=? 6) && (0 <=? py) && (py <=? 6).

Definition decode (ws : list Z) : list VectorCoord :=
  List.filter in_grid (rows start ws).

(** Removal of consecutive repeats: a sample is kept unless it is
    identical to the sample just before it. *)
Fixpoint after (prev : VectorCoord) (s : list VectorCoord) : list VectorCoord :=
  match s with
  | [] => []
  | c :: s' => if decide (c = prev) then after c s' else c :: after c s'
  end.

Definition remove_repeats (s : list VectorCoord) : list VectorCoord :=
  match s with
  | [] => []
  | c :: s' => c :: after c s'
  end.

End Reference.

(** The movement a row word causes, by the decoder's rules, given the
    direction of the axis: the displacement and the direction afterwards. *)
Definition axisMove (F1 F2 : bool) (direction : Z) : Z * Z :=
  if F1 && F2 then (0, - direction)
  else if F1 then (direction, direction)
  else if F2 then (2 * direction, direction)
  else (0, direction).

(** The displacement [(dx, dy)] of every row, the directions threaded
    through; no position enters it. *)
Fixpoint rowMoves (hdir vdir : Z) (binaryData : list Z) : list (Z * Z) :=
  match binaryData with
  | [] => []
  | binary :: rest =>
      let '(dy, vdir') := axisMove (Z.testbit binary 4) (Z.testbit binary 3) vdir in
      let '(dx, hdir') := axisMove (Z.testbit binary 2) (Z.testbit binary 1) hdir in
      (dx, dy) :: rowMoves hdir' vdir' rest
  end.

Definition sumZ (l : list Z) : Z := fold_right Z.add 0 l.

(** ** Vocabulary of the statements *)

(** The decoder's locals mirror a reference beam. *)
Definition mirrors (st : DecoderLocals) (b : Reference.Beam) : Prop :=
  currentX st = Reference.pos_x b /\
  currentY st = Reference.pos_y b /\
  beamIntensity st = (if Reference.on b then 1 else 0) /\
  horizontalDirection st = Reference.h_sign b /\
  verticalDirection st = Reference.v_sign b.

(** A sample drawn with the beam off: its intensity is not 1. *)
Definition beam_off (c : VectorCoord) : Prop := c.2 <> 1.

(** No two neighbours of the output are identical. *)
Fixpoint no_adjacent_repeat (s : list VectorCoord) : Prop :=
  match s with
  | c :: (c' :: _) as s' => c <> c' /\ no_adjacent_repeat s'
  | _ => True
  end.

(** The coordinate mapping with the origin offset and the coordinates both
    scaled by pixels-per-unit alone. *)
Definition toRaster_one_factor
    (x y cellPixelSize characterScale originOffsetX originOffsetY : float) : float * float :=
  (let pixelsPerUnit := cellPixelSize / (8 * characterScale) in
   (originOffsetX * pixelsPerUnit + x * pixelsPerUnit,
    cellPixelSize - originOffsetY * pixelsPerUnit - y * pixelsPerUnit))%float.



(** What [buffer[i] += d] makes of a cell's previous content. *)
Definition bump (d old : float) : float := JS.fround (old + d)%float.

(** The kernel weight the accumulator reads for the kernel cell
    [(kx, ky)]. *)
Definition kernelWeight (kernel : GaussianKernel) (kx ky : Z) : float :=
  JS.Float32Array_get (Kernel.weights kernel) (ky * (Kernel.radius kernel * 2 + 1) + kx).

(** The kernel an uncached computation yields for [sigma]: the provider
    called with nothing cached. *)
Definition freshKernel `{HostMath} (sigma : float) : GaussianKernel :=
  fst (getGaussianKernel None sigma).




(** ** A concrete character to run the renderer on *)


(** A one-character ROM: beam on, one unit up, one unit right with the
    beam switched off. *)
Definition exampleRom : RomTable :=
  fun char => if String.eqb char "L" then Some [1; 16; 5] else None.


(** ** Further functions of the sources *)

(** *** renderers/vectorMode.js *)

Definition CRISP_LINE_OFFSET : float := 0.5%float.

Definition cdcToCanvasX (cdcX : Z) (cellX originOffsetX characterScale pixelScale : float)
  : float :=
  (cellX + originOffsetX + JS.of_Z cdcX * characterScale
   + CRISP_LINE_OFFSET / pixelScale)%float.

Definition cdcToCanvasY (cdcY : Z)
    (cellY cellSize originOffsetY characterScale pixelScale : float) : float :=
  let bottom := (cellY + cellSize - 1 / pixelScale)%float in
  (bottom - originOffsetY - JS.of_Z cdcY * characterScale
   + CRISP_LINE_OFFSET / pixelScale)%float.

(** The calls a renderer makes on the canvas context, in order. *)
Inductive CanvasCall : Type :=
  | BeginPath
  | MoveTo (x y : float)
  | LineTo (x y : float)
  | Stroke.

(** The placement arguments of [drawCharacterStrokes]. *)
Record StrokePlacement : Type := mkPlacement {
  place_cellX : float;
  place_cellY : float;
  place_cellSize : float;
  place_originOffsetX : float;
  place_originOffsetY : float;
  place_characterScale : float;
  place_pixelScale : float
}.

(** The variables of the loop of [drawCharacterStrokes], and the calls
    made on [ctx] so far. *)
Record StrokeLocals : Type := mkStroke {
  prevCdcX : Z;
  prevCdcY : Z;
  ctxCalls : list CanvasCall
}.

(** Body of [for (const [cdcX, cdcY, intensity] of simplified)]. *)
Definition strokeStep (p : StrokePlacement) (st : StrokeLocals) (sample : VectorCoord)
  : StrokeLocals :=
  let '(cdcX, cdcY, intensity) := sample in
  let calls :=
    if intensity =? 1 then
      let prevCanvasX :=
        cdcToCanvasX (prevCdcX st) (place_cellX p) (place_originOffsetX p)
          (place_characterScale p) (place_pixelScale p) in
      let prevCanvasY :=
        cdcToCanvasY (prevCdcY st) (place_cellY p) (place_cellSize p)
          (place_originOffsetY p) (place_characterScale p) (place_pixelScale p) in
      let canvasX :=
        cdcToCanvasX cdcX (place_cellX p) (place_originOffsetX p)
          (place_characterScale p) (place_pixelScale p) in
      let canvasY :=
        cdcToCanvasY cdcY (place_cellY p) (place_cellSize p)
          (place_originOffsetY p) (place_characterScale p) (place_pixelScale p) in
      ctxCalls st ++ [BeginPath; MoveTo prevCanvasX prevCanvasY; LineTo canvasX canvasY; Stroke]
    else ctxCalls st in
  mkStroke cdcX cdcY calls.

(** The loop of [drawCharacterStrokes] over given samples, the pen
    starting at the CDC origin. *)
Definition strokeLoop (p : StrokePlacement) (samples : list VectorCoord) : list CanvasCall :=
  ctxCalls (fold_left (strokeStep p) samples (mkStroke 0 0 [])).

Definition drawCharacterStrokes (cdcRomBinary : RomTable) (char : string)
    (p : StrokePlacement) : list CanvasCall :=
  let vectorData := getCharacterVector cdcRomBinary char in
  let simplified := simplifyVector vectorData in
  match simplified with
  | [] => []
  | _ => strokeLoop p simplified
  end.

(** *** config.js *)




(** *** renderers/gaussianMode.js: the atlas *)




(** *** renderers/common.js *)

(** [drawCheckerboard] for a whole number of pixels: the cells
    [(x, y)] of its [ctx.fillRect(x, y, 1, 1)] calls, in order. *)
Definition drawCheckerboard (size : Z) : list (Z * Z) :=
  fold_left (fun calls y =>
    fold_left (fun calls x =>
      if Z.rem (x + y) 2 =? 0 then calls ++ [(x, y)] else calls)
      (range_below size) calls)
    (range_below size) [].

(** *** renderers/gaussianMode.js: the alpha channel of [transferToCanvas] *)

Module JSNumber.

(** [Math.min(a, b)]: NaN if either is, and -0 below +0. *)
Definition Math_min (a b : float) : float :=
  if is_nan a || is_nan b then nan
  else if (a <? b)%float then a
  else if (b <? a)%float then b
  else if is_zero a && get_sign b then b
  else a.

(** [Math.round(x)]: the integer nearest to [x], a tie going towards
    +infinity; NaN, the infinities and the zeros are returned as they
    are, and a result of zero keeps the sign of [x]. *)
Definition Math_round (x : float) : float :=
  match Prim2SF x with
  | S754_finite s m e =>
      if 0 <=? e then x
      else
        let n := (2 * cond_Zopp s (Zpos m) + 2 ^ (- e)) / 2 ^ (1 - e) in
        if n =? 0 then (if s then (-0)%float else 0%float) else JS.of_Z n
  | _ => x
  end.

(** The byte a [Uint8ClampedArray] stores for a number: NaN is 0, the
    number is clamped to 0..255 and rounded to the nearest integer, a tie
    going to the even one. *)
Definition Uint8Clamped_store (x : float) : Z :=
  match Prim2SF x with
  | S754_nan => 0
  | S754_zero _ => 0
  | S754_infinity s => if s then 0 else 255
  | S754_finite s m e =>
      if s then 0
      else if 0 <=? e then Z.min 255 (Zpos m * 2 ^ e)
      else
        let d := 2 ^ (- e) in
        let q := Zpos m / d in
        let r := Zpos m mod d in
        let n :=
          if 2 * r <? d then q
          else if d <? 2 * r then q + 1
          else if Z.even q then q else q + 1 in
        Z.min 255 n
  end.

End JSNumber.

(** The loop body of [transferToCanvas] for one buffer cell: the byte
    that ends up in [data[idx + 3]]. *)
Definition transferToCanvas_alpha (bufferValue : float) : Z :=
  let intensity := JSNumber.Math_min 1 bufferValue in
  let alpha := JSNumber.Math_round (intensity * 255)%float in
  JSNumber.Uint8Clamped_store alpha.

(** *** renderers/crtMode.js, before the filters moved to physics.js

    The module then had its own [processCharacterPhysics], with one set of
    coefficients for both axes and no gains; its [createBiquadState],
    [applyBiquad] and [applyIIR] are those of physics.js word for word. *)

Module CrtMode.

(** Body of the inner [for (let s = 0; s < subsampleFactor; s++)] loop. *)
Definition subsampleStep (scaledX scaledY beam : float)
    (xyCoeffs : BiquadCoeffs) (retentionZ : float)
    (st : PhysicsLocals) : PhysicsLocals :=
  let '(filteredX, xState') := applyBiquad scaledX (xState st) xyCoeffs in
  let '(filteredY, yState') := applyBiquad scaledY (yState st) xyCoeffs in
  let zState' := applyIIR beam (zState st) retentionZ in
  mkPhysics xState' yState' zState'
    (filteredPositions st ++ [mkPosition filteredX filteredY zState']).

(** Body of the outer [for (const [x, y, beam] of vectorData)] loop. *)
Definition physicsRow (subsampleFactor : Z) (characterScale : float)
    (xyCoeffs : BiquadCoeffs) (retentionZ : float)
    (st : PhysicsLocals) (row : VectorCoord) : PhysicsLocals :=
  let '(x, y, beam) := row in
  let scaledX := (JS.of_Z x * characterScale)%float in
  let scaledY := (JS.of_Z y * characterScale)%float in
  Nat.iter (Z.to_nat subsampleFactor)
    (subsampleStep scaledX scaledY (JS.of_Z beam) xyCoeffs retentionZ)
    st.

Definition processCharacterPhysics (vectorData : list VectorCoord)
    (subsampleFactor : Z) (xyCoeffs : BiquadCoeffs) (retentionZ characterScale : float)
  : list FilteredPosition :=
  match vectorData with
  | [] => []
  | firstPos :: _ =>
      let '(fx, fy, fbeam) := firstPos in
      let xState := createBiquadState (JS.of_Z fx * characterScale)%float in
      let yState := createBiquadState (JS.of_Z fy * characterScale)%float in
      let zState := JS.of_Z fbeam in
      filteredPositions
        (fold_left (physicsRow subsampleFactor characterScale xyCoeffs retentionZ)
           vectorData (mkPhysics xState yState zState []))
  end.

End CrtMode.

(** ** Vocabulary of the further statements *)

(** The direction signs are +1 or -1, the beam state is 0 or 1, and so is
    the intensity of every sample pushed so far. *)
Definition wellFormedLocals (st : DecoderLocals) : Prop :=
  (horizontalDirection st = 1 \/ horizontalDirection st = -1) /\
  (verticalDirection st = 1 \/ verticalDirection st = -1) /\
  (beamIntensity st = 0 \/ beamIntensity st = 1) /\
  Forall (fun s : VectorCoord => s.2 = 0 \/ s.2 = 1) (vectorData st).

(** Two samples at most two grid units apart on each axis. *)
Definition withinTwo (a b : VectorCoord) : Prop :=
  Z.abs (b.1.1 - a.1.1) <= 2 /\ Z.abs (b.1.2 - a.1.2) <= 2.

(** The grid position of a sample. *)
Definition gridPoint (c : VectorCoord) : Z * Z := (c.1.1, c.1.2).

(** The pen movements a sample sequence draws: for each sample of
    intensity 1 the segment from the position before it to its own. *)
Fixpoint penSegments (prev : Z * Z) (samples : list VectorCoord)
  : list ((Z * Z) * (Z * Z)) :=
  match samples with
  | [] => []
  | c :: rest =>
      (if c.2 =? 1 then [(prev, gridPoint c)] else []) ++ penSegments (gridPoint c) rest
  end.

(** The four canvas calls that stroke one segment. *)
Definition penStroke (p : StrokePlacement) (seg : (Z * Z) * (Z * Z)) : list CanvasCall :=
  let toX cdcX :=
    cdcToCanvasX cdcX (place_cellX p) (place_originOffsetX p)
      (place_characterScale p) (place_pixelScale p) in
  let toY cdcY :=
    cdcToCanvasY cdcY (place_cellY p) (place_cellSize p)
      (place_originOffsetY p) (place_characterScale p) (place_pixelScale p) in
  [BeginPath; MoveTo (toX seg.1.1) (toY seg.1.2); LineTo (toX seg.2.1) (toY seg.2.2); Stroke].

(** A segment with distinct end points. *)
Definition properSegment (seg : (Z * Z) * (Z * Z)) : bool :=
  negb (bool_decide (seg.1 = seg.2)).

(** Two runs of the physics loop that agree on one channel: on its filter
    state and on its trace so far. *)
Definition sameX (st st' : PhysicsLocals) : Prop :=
  xState st = xState st' /\
  map x (filteredPositions st) = map x (filteredPositions st').

Definition sameY (st st' : PhysicsLocals) : Prop :=
  yState st = yState st' /\
  map y (filteredPositions st) = map y (filteredPositions st').

Definition sameZ (st st' : PhysicsLocals) : Prop :=
  zState st = zState st' /\
  map z (filteredPositions st) = map z (filteredPositions st').

(** A grid point of the 7 x 7 character grid. *)
Definition onGrid (point : Z * Z) : Prop :=
  0 <= point.1 <= CDC_CHAR_MAX_COORD /\ 0 <= point.2 <= CDC_CHAR_MAX_COORD.

(** A [moveTo] or [lineTo] call goes to the canvas image of a grid point;
    the other calls carry no coordinates. *)
Definition targetsGrid (p : StrokePlacement) (call : CanvasCall) : Prop :=
  match call with
  | MoveTo canvasX canvasY | LineTo canvasX canvasY =>
      exists point : Z * Z,
        onGrid point /\
        canvasX = cdcToCanvasX point.1 (place_cellX p) (place_originOffsetX p)
                    (place_characterScale p) (place_pixelScale p) /\
        canvasY = cdcToCanvasY point.2 (place_cellY p) (place_cellSize p)
                    (place_originOffsetY p) (place_characterScale p) (place_pixelScale p)
  | BeginPath | Stroke => True
  end.

(** * Properties *)

(** ** Bit extraction *)

Module JSFacts.
Import JS.

Lemma ToInt32_mod n : ToInt32 n mod 2 ^ 32 = n mod 2 ^ 32.
Proof.
  unfold ToInt32.
  rewrite (Z.mod_eq (n + 2 ^ 31) (2 ^ 32)) by lia.
  replace (n + 2 ^ 31 - 2 ^ 32 * ((n + 2 ^ 31) / 2 ^ 32) - 2 ^ 31)
    with (n + (- ((n + 2 ^ 31) / 2 ^ 32)) * 2 ^ 32) by lia.
  apply Z.mod_add. lia.
Qed.

Lemma ToInt32_testbit n i : 0 <= i < 32 -> Z.testbit (ToInt32 n) i = Z.testbit n i.
Proof.
  intros Hi.
  rewrite <- (Z.mod_pow2_bits_low (ToInt32 n) 32 i) by lia.
  rewrite ToInt32_mod.
  apply Z.mod_pow2_bits_low. lia.
Qed.

Lemma land_1_testbit a : negb (Z.land a 1 =? 0) = Z.testbit a 0.
Proof.
  change 1 with (Z.ones 1).
  rewrite Z.land_ones by lia.
  change (2 ^ 1) with 2. rewrite <- Z.bit0_mod.
  destruct (Z.testbit a 0); reflexivity.
Qed.

(** The flag extraction [Boolean((binary >> i) & 1)] reads bit [i]. *)
Lemma flag_shr binary i :
  0 <= i < 32 -> Boolean (band (shr binary i) 1) = Z.testbit binary i.
Proof.
  intros Hi. unfold Boolean, band, shr.
  change (ToInt32 1) with 1.
  rewrite land_1_testbit, ToInt32_testbit by lia.
  rewrite Z.shiftr_spec by lia.
  rewrite ToInt32_testbit by lia.
  f_equal; lia.
Qed.

(** [Boolean(binary & 1)] reads bit 0. *)
Lemma flag_low binary : Boolean (band binary 1) = Z.testbit binary 0.
Proof.
  unfold Boolean, band. change (ToInt32 1) with 1.
  rewrite land_1_testbit. apply ToInt32_testbit. lia.
Qed.

End JSFacts.

(** ** ROM decoder *)

Section Decoder.

Lemma mirrors_start : mirrors initialLocals Reference.start.
Proof. repeat split. Qed.

Lemma withinBounds_in_grid px py beam :
  withinBounds px py = Reference.in_grid (px, py, beam).
Proof. reflexivity. Qed.

Lemma withinBounds_spec px py :
  withinBounds px py = true <-> (0 <= px <= 6 /\ 0 <= py <= 6).
Proof. unfold withinBounds, CDC_CHAR_MAX_COORD. lia. Qed.

(** The value of every local after one row, flag by flag. *)
Lemma decodeRow_unfold st binary :
  let V := axisMove (Z.testbit binary 4) (Z.testbit binary 3) (verticalDirection st) in
  let H := axisMove (Z.testbit binary 2) (Z.testbit binary 1) (horizontalDirection st) in
  let px := currentX st + fst H in
  let py := currentY st + fst V in
  let beam :=
    if Z.testbit binary 0 then (if JS.Boolean (beamIntensity st) then 0 else 1)
    else beamIntensity st in
  decodeRow st binary =
    if withinBounds px py
    then mkLocals px py beam (snd H) (snd V) (vectorData st ++ [(px, py, beam)]) (warnings st)
    else mkLocals px py beam (snd H) (snd V) (vectorData st) (warnings st ++ [(px, py)]).
Proof.
  unfold decodeRow, axisMove.
  rewrite !JSFacts.flag_shr, JSFacts.flag_low by lia.
  destruct (Z.testbit binary 4), (Z.testbit binary 3),
    (Z.testbit binary 2), (Z.testbit binary 1); cbn -[withinBounds Z.mul];
    rewrite ?Z.add_0_r; reflexivity.
Qed.

Lemma axis_axisMove one two pos sign :
  Reference.axis one two pos sign =
    (pos + fst (axisMove one two sign), snd (axisMove one two sign)).
Proof.
  destruct one, two; unfold Reference.axis, axisMove; cbn [andb fst snd];
    f_equal; lia.
Qed.

Lemma beam_toggle_mirrors (bon : bool) :
  (if JS.Boolean (if bon then 1 else 0) then 0 else 1) = (if negb bon then 1 else 0).
Proof. destruct bon; reflexivity. Qed.

Lemma decodeRow_mirrors st b w :
  mirrors st b ->
  mirrors (decodeRow st w) (Reference.row b w) /\
  vectorData (decodeRow st w) =
    vectorData st ++ List.filter Reference.in_grid [Reference.sample (Reference.row b w)] /\
  (length (vectorData (decodeRow st w)) + length (warnings (decodeRow st w)) =
    S (length (vectorData st) + length (warnings st)))%nat.
Proof.
  intros (Hx & Hy & Hb & Hh & Hv).
  rewrite decodeRow_unfold. unfold Reference.row.
  rewrite !axis_axisMove. cbn zeta.
  unfold Reference.v_one, Reference.v_two, Reference.h_one, Reference.h_two,
    Reference.toggle, Reference.sample, mirrors.
  cbn [Reference.pos_x Reference.pos_y Reference.on Reference.h_sign Reference.v_sign].
  rewrite Hx, Hy, Hb, Hh, Hv, beam_toggle_mirrors.
  set (px := Reference.pos_x b + _). set (py := Reference.pos_y b + _).
  cbn [List.filter]. rewrite <- withinBounds_in_grid.
  destruct (withinBounds px py);
    cbn [currentX currentY beamIntensity horizontalDirection verticalDirection
         vectorData warnings];
    rewrite ?length_app, ?app_nil_r; cbn [length];
    (split; [ | split; [ | lia ] ]).
  - repeat split. destruct (Z.testbit w 0); reflexivity.
  - destruct (Z.testbit w 0); reflexivity.
  - repeat split. destruct (Z.testbit w 0); reflexivity.
  - reflexivity.
Qed.

Lemma decodeRows_snoc st ws w :
  decodeRows st (ws ++ [w]) = decodeRow (decodeRows st ws) w.
Proof. unfold decodeRows. rewrite fold_left_app. reflexivity. Qed.

Lemma decodeRows_mirrors ws : forall st b,
  mirrors st b ->
  mirrors (decodeRows st ws) (fold_left Reference.row ws b) /\
  vectorData (decodeRows st ws) =
    vectorData st ++ List.filter Reference.in_grid (Reference.rows b ws) /\
  (length (vectorData (decodeRows st ws)) + length (warnings (decodeRows st ws)) =
    length ws + (length (vectorData st) + length (warnings st)))%nat.
Proof.
  induction ws as [|w ws IH]; intros st b Hm.
  - cbn. rewrite app_nil_r. auto.
  - destruct (decodeRow_mirrors st b w Hm) as (Hm' & Hv & Hl).
    destruct (IH _ _ Hm') as (IHm & IHv & IHl).
    change (decodeRows st (w :: ws)) with (decodeRows (decodeRow st w) ws).
    split; [exact IHm | split].
    + rewrite IHv, Hv, <- app_assoc. f_equal.
      cbn [Reference.rows List.filter].
      destruct (Reference.in_grid _); reflexivity.
    + rewrite IHl, Hl. cbn [length]. lia.
Qed.

Lemma binaryToVector_locals ws :
  binaryToVector ws = vectorData (decodeRows initialLocals ws).
Proof. destruct ws; reflexivity. Qed.

Lemma binaryToVector_warnings_locals ws :
  binaryToVector_warnings ws = warnings (decodeRows initialLocals ws).
Proof. destruct ws; reflexivity. Qed.

(** The running position is the sum of the displacements of all rows. *)
Lemma decodeRows_position ws : forall st,
  currentX (decodeRows st ws) =
    currentX st + sumZ (map fst (rowMoves (horizontalDirection st) (verticalDirection st) ws)) /\
  currentY (decodeRows st ws) =
    currentY st + sumZ (map snd (rowMoves (horizontalDirection st) (verticalDirection st) ws)).
Proof.
  induction ws as [|w ws IH]; intros st.
  - cbn. lia.
  - change (decodeRows st (w :: ws)) with (decodeRows (decodeRow st w) ws).
    destruct (IH (decodeRow st w)) as (IHx & IHy). rewrite IHx, IHy.
    pose proof (decodeRow_unfold st w) as Hu. cbn zeta in Hu.
    cbn [rowMoves].
    destruct (axisMove (Z.testbit w 4) (Z.testbit w 3) (verticalDirection st)) as [dy vdir'].
    destruct (axisMove (Z.testbit w 2) (Z.testbit w 1) (horizontalDirection st)) as [dx hdir'].
    cbn [fst snd] in Hu.
    destruct (withinBounds (currentX st + dx) (currentY st + dy));
      rewrite Hu; cbn [currentX currentY horizontalDirection verticalDirection
                       map fst snd sumZ fold_right]; unfold sumZ; lia.
Qed.

(** What one more row adds to the output and to the diagnostics. *)
Lemma decodeRows_emit_or_warn (ws : list Z) (w : Z) :
  let st := decodeRows initialLocals (ws ++ [w]) in
  let px := currentX st in
  let py := currentY st in
  (~ (0 <= px <= 6 /\ 0 <= py <= 6) ->
     binaryToVector (ws ++ [w]) = binaryToVector ws /\
     binaryToVector_warnings (ws ++ [w]) = binaryToVector_warnings ws ++ [(px, py)]) /\
  (0 <= px <= 6 /\ 0 <= py <= 6 ->
     binaryToVector (ws ++ [w]) = binaryToVector ws ++ [(px, py, beamIntensity st)] /\
     binaryToVector_warnings (ws ++ [w]) = binaryToVector_warnings ws).
Proof.
  cbn zeta.
  rewrite !binaryToVector_locals, !binaryToVector_warnings_locals, decodeRows_snoc.
  pose proof (decodeRow_unfold (decodeRows initialLocals ws) w) as Hu. cbn zeta in Hu.
  destruct (withinBounds _ _) eqn:E in Hu; rewrite Hu;
    cbn [currentX currentY beamIntensity vectorData warnings];
    [apply withinBounds_spec in E | apply not_true_iff_false in E;
                                     rewrite withinBounds_spec in E];
    split; intros H; tauto.
Qed.

(** C1.  For every sequence of row words the decoder does what the
    reference delta-decoding algorithm does: from position (0,0), beam off
    and both direction signs +1, each word is put through the vertical
    rule, the horizontal rule and the beam toggle, so that after the words
    the decoder's position, beam state and direction signs are the
    reference's; and the decoder returns what the reference emits, the
    sample (x, y, beam state after the toggle) of each row, in order, that
    lies on the 0..6 grid. *)
Theorem binaryToVector_refines_reference (ws : list Z) :
  binaryToVector ws = Reference.decode ws /\
  let st := decodeRows initialLocals ws in
  let b := fold_left Reference.row ws Reference.start in
  (currentX st, currentY st) = (Reference.pos_x b, Reference.pos_y b) /\
  beamIntensity st = (if Reference.on b then 1 else 0) /\
  (horizontalDirection st, verticalDirection st) = (Reference.h_sign b, Reference.v_sign b).
Proof.
  rewrite binaryToVector_locals. unfold Reference.decode.
  destruct (decodeRows_mirrors ws _ _ mirrors_start) as ((Hx & Hy & Hb & Hh & Hd) & Hv & _).
  split; [exact Hv|]. cbn zeta.
  rewrite Hx, Hy, Hb, Hh, Hd. auto.
Qed.

(** When every row of the reference stays on the grid, as the rows of a
    well-formed ROM do, the decoder returns one sample per row. *)
Corollary binaryToVector_on_grid (ws : list Z) :
  forallb Reference.in_grid (Reference.rows Reference.start ws) = true ->
  binaryToVector ws = Reference.rows Reference.start ws.
Proof.
  intros Hall. rewrite binaryToVector_locals.
  destruct (decodeRows_mirrors ws _ _ mirrors_start) as (_ & Hv & _).
  rewrite Hv. cbn [vectorData initialLocals app].
  apply forallb_filter_id. exact Hall.
Qed.

(** C2.  Every sample of the output has both coordinates in [0,6]; every
    row is processed, leaving either a sample or a diagnostic; and a row
    whose position is outside [0,6] on an axis adds no sample (only a
    diagnostic), whatever was decoded before it, while a row inside adds
    its sample, whatever was dropped before it. *)
Theorem binaryToVector_drops_out_of_bounds (ws : list Z) :
  Forall (fun s : VectorCoord => 0 <= s.1.1 <= 6 /\ 0 <= s.1.2 <= 6) (binaryToVector ws) /\
  (length (binaryToVector ws) + length (binaryToVector_warnings ws))%nat = length ws /\
  forall w : Z,
    let st := decodeRows initialLocals (ws ++ [w]) in
    let px := currentX st in
    let py := currentY st in
    (~ (0 <= px <= 6 /\ 0 <= py <= 6) ->
       binaryToVector (ws ++ [w]) = binaryToVector ws /\
       binaryToVector_warnings (ws ++ [w]) = binaryToVector_warnings ws ++ [(px, py)]) /\
    (0 <= px <= 6 /\ 0 <= py <= 6 ->
       binaryToVector (ws ++ [w]) = binaryToVector ws ++ [(px, py, beamIntensity st)] /\
       binaryToVector_warnings (ws ++ [w]) = binaryToVector_warnings ws).
Proof.
  destruct (decodeRows_mirrors ws _ _ mirrors_start) as (_ & Hv & Hl).
  split; [|split].
  - rewrite binaryToVector_locals, Hv. cbn [vectorData initialLocals app].
    apply List.Forall_forall. intros [[sx sy] sb] Hin.
    apply List.filter_In in Hin as [_ Hg]. cbn [fst snd].
    unfold Reference.in_grid in Hg. lia.
  - rewrite binaryToVector_locals, binaryToVector_warnings_locals, Hl. cbn. lia.
  - intros w. apply decodeRows_emit_or_warn.
Qed.

(** C10.  The running position is never clamped or reset: after any
    rows it is the sum of the displacements of all of them, dropped or
    not.  So when the position is out of bounds after some rows and the
    next row brings it back on the grid, the sample emitted for that row
    carries every displacement accumulated meanwhile. *)
Theorem binaryToVector_position_not_clamped (ws : list Z) :
  let st := decodeRows initialLocals ws in
  currentX st = sumZ (map fst (rowMoves 1 1 ws)) /\
  currentY st = sumZ (map snd (rowMoves 1 1 ws)) /\
  forall w : Z,
    let st' := decodeRows initialLocals (ws ++ [w]) in
    ~ (0 <= currentX st <= 6 /\ 0 <= currentY st <= 6) ->
    (0 <= currentX st' <= 6 /\ 0 <= currentY st' <= 6) ->
    binaryToVector (ws ++ [w]) =
      binaryToVector ws ++
        [(sumZ (map fst (rowMoves 1 1 (ws ++ [w]))),
          sumZ (map snd (rowMoves 1 1 (ws ++ [w]))),
          beamIntensity st')].
Proof.
  cbn zeta.
  destruct (decodeRows_position ws initialLocals) as (Hx & Hy).
  cbn [currentX currentY horizontalDirection verticalDirection initialLocals] in Hx, Hy.
  rewrite Z.add_0_l in Hx, Hy.
  split; [exact Hx | split; [exact Hy |]].
  intros w _ Hin.
  destruct (decodeRows_position (ws ++ [w]) initialLocals) as (Hx' & Hy').
  cbn [currentX currentY horizontalDirection verticalDirection initialLocals] in Hx', Hy'.
  rewrite Z.add_0_l in Hx', Hy'.
  destruct (decodeRows_emit_or_warn ws w) as (_ & Hemit).
  rewrite <- Hx', <- Hy'. apply Hemit. exact Hin.
Qed.

(** C2 at a concrete ROM: the second and third rows leave the grid and
    are dropped, the fourth row returns and is emitted. *)
Lemma binaryToVector_drops_out_of_bounds_witness :
  binaryToVector [24; 16; 24] = binaryToVector [24; 16] /\
  binaryToVector [24; 16; 24; 16] = [(0, 0, 0); (0, 0, 0)] /\
  binaryToVector_warnings [24; 16; 24; 16] = [(0, -1); (0, -1)].
Proof.
  destruct (binaryToVector_drops_out_of_bounds [24; 16]) as (_ & _ & Hstep).
  destruct (Hstep 24) as (Hdrop & _).
  split; [apply Hdrop; vm_compute; intros [_ [H _]]; apply H; reflexivity |].
  split; reflexivity.
Defined.

(** C10 at a concrete ROM: the beam leaves the grid to x = -2, climbs four
    units while out of bounds, and re-enters at (0, 4). *)
Lemma binaryToVector_position_not_clamped_witness :
  currentX (decodeRows initialLocals [6; 2; 6; 8; 8]) = (-2) /\
  currentY (decodeRows initialLocals [6; 2; 6; 8; 8]) = 4 /\
  binaryToVector [6; 2; 6; 8; 8; 2] = binaryToVector [6; 2; 6; 8; 8] ++ [(0, 4, 0)].
Proof.
  destruct (binaryToVector_position_not_clamped [6; 2; 6; 8; 8]) as (Hx & Hy & Hre).
  split; [exact Hx | split; [exact Hy |]].
  apply (Hre 2).
  - vm_compute. intros [[H _] _]. apply H. reflexivity.
  - vm_compute. repeat split; discriminate.
Defined.

(** Consecutive emitted samples can lie more than two units apart. *)
Example binaryToVector_jump :
  binaryToVector [6; 2; 6; 8; 8; 2] = [(0, 0, 0); (0, 4, 0)].
Proof. reflexivity. Qed.

End Decoder.

(** ** Vector simplifier *)

Section Simplifier.

Implicit Types (s : list VectorCoord) (c prev : VectorCoord).

Lemma differs_false c prev : differs c prev = false <-> c = prev.
Proof.
  destruct c as [[cx cy] cb], prev as [[px py] pb]. unfold differs.
  rewrite !orb_false_iff, !negb_false_iff, !Z.eqb_eq.
  split; [intros [[-> ->] ->]; reflexivity | intros [= -> -> ->]; auto].
Qed.

Lemma differs_decide c prev : differs c prev = negb (bool_decide (c = prev)).
Proof.
  destruct (differs c prev) eqn:E; case_bool_decide as Heq; try reflexivity.
  - apply differs_false in Heq. congruence.
  - apply differs_false in E. contradiction.
Qed.

(** The loop of [deduplicateAdjacent], run from a result that ends in
    [prev], appends the samples that differ from their predecessor. *)
Lemma dedup_loop s : forall acc prev,
  fold_left dedupStep s (acc ++ [prev]) = acc ++ prev :: Reference.after prev s.
Proof.
  induction s as [|c s IH]; intros acc prev; cbn [fold_left Reference.after].
  - reflexivity.
  - unfold dedupStep at 2. rewrite last_snoc, differs_decide.
    case_bool_decide as Heq; destruct (decide (c = prev)) as [Heq'|Hne];
      try contradiction; cbn [negb].
    + subst c. apply IH.
    + rewrite (IH (acc ++ [prev]) c), <- app_assoc. reflexivity.
Qed.

Lemma deduplicateAdjacent_remove_repeats s :
  deduplicateAdjacent s = Reference.remove_repeats s.
Proof.
  destruct s as [|c s]; [reflexivity|].
  exact (dedup_loop s [] c).
Qed.

Lemma after_idem s : forall prev,
  Reference.after prev (Reference.after prev s) = Reference.after prev s.
Proof.
  induction s as [|c s IH]; intros prev; cbn [Reference.after]; [reflexivity|].
  destruct (decide (c = prev)) as [->|Hne].
  - apply IH.
  - cbn [Reference.after]. destruct (decide (c = prev)); [contradiction|].
    rewrite IH. reflexivity.
Qed.

Lemma after_sublist s : forall prev, sublist (Reference.after prev s) s.
Proof.
  induction s as [|c s IH]; intros prev; cbn [Reference.after]; [constructor|].
  destruct (decide (c = prev)).
  - apply sublist_cons, IH.
  - apply sublist_skip, IH.
Qed.

Lemma after_no_repeat s : forall prev,
  no_adjacent_repeat (prev :: Reference.after prev s).
Proof.
  induction s as [|c s IH]; intros prev; cbn [Reference.after]; [exact I|].
  destruct (decide (c = prev)) as [->|Hne].
  - apply IH.
  - split; [congruence | apply IH].
Qed.

Lemma after_last s : forall prev,
  last (prev :: Reference.after prev s) = last (prev :: s).
Proof.
  induction s as [|c s IH]; intros prev; cbn [Reference.after]; [reflexivity|].
  destruct (decide (c = prev)) as [->|Hne].
  - rewrite IH. reflexivity.
  - rewrite !last_cons_cons. apply IH.
Qed.

Lemma firstOnFrom_spec (s : list VectorCoord) : forall i,
  0 <= i ->
  (Forall beam_off s /\ firstOnFrom i s = -1) \/
  (exists pre c rest, s = pre ++ c :: rest /\ Forall beam_off pre /\ c.2 = 1 /\
                      firstOnFrom i s = i + Z.of_nat (length pre)).
Proof.
  induction s as [|[[cx cy] cb] s IH]; intros i Hi.
  - left. split; [constructor | reflexivity].
  - cbn [firstOnFrom]. destruct (Z.eqb_spec cb 1) as [->|Hoff].
    + right. exists [], (cx, cy, 1), s. cbn. repeat split; [constructor | lia].
    + destruct (IH (i + 1)) as [[Hall Hnone]|(pre & c & rest & -> & Hpre & Hon & Hidx)]; [lia| |].
      * left. split; [constructor; [exact Hoff | exact Hall] | exact Hnone].
      * right. exists ((cx, cy, cb) :: pre), c, rest.
        repeat split; [constructor; [exact Hoff | exact Hpre] | exact Hon |].
        rewrite Hidx. cbn [length]. lia.
Qed.

Lemma lastOnUpto_step (fuel j : nat) (s : list VectorCoord) (c : VectorCoord) :
  s !! j = Some c ->
  lastOnUpto (S fuel) (Z.of_nat j) s =
    if c.2 =? 1 then Z.of_nat j else lastOnUpto fuel (Z.of_nat j - 1) s.
Proof.
  intros Hc. cbn [lastOnUpto].
  destruct (Z.geb_spec (Z.of_nat j) 0) as [_|]; [|lia].
  rewrite Nat2Z.id. unfold VectorCoord in *. rewrite Hc.
  destruct c as [[cx cy] cb]. reflexivity.
Qed.

Lemma lastOnUpto_negative (fuel : nat) (s : list VectorCoord) :
  lastOnUpto fuel (-1) s = -1.
Proof. destruct fuel; reflexivity. Qed.

Lemma lastOnUpto_spec (s : list VectorCoord) : forall (j fuel : nat),
  (j < fuel)%nat -> (j < length s)%nat ->
  (Forall beam_off (take (S j) s) /\ lastOnUpto fuel (Z.of_nat j) s = -1) \/
  (exists k c, (k <= j)%nat /\ s !! k = Some c /\ c.2 = 1 /\
               Forall beam_off (drop (S k) (take (S j) s)) /\
               lastOnUpto fuel (Z.of_nat j) s = Z.of_nat k).
Proof.
  induction j as [|j IH]; intros fuel Hfuel Hlen.
  - destruct fuel as [|fuel]; [lia|].
    destruct (lookup_lt_is_Some_2 s 0%nat Hlen) as [c Hc].
    rewrite (lastOnUpto_step fuel 0 s c Hc), (take_S_r s 0 c Hc).
    destruct (Z.eqb_spec c.2 1) as [Hon|Hoff].
    + right. exists 0%nat, c. repeat split; [lia | exact Hc | exact Hon | constructor].
    + left. split; [repeat constructor; exact Hoff | apply lastOnUpto_negative].
  - destruct fuel as [|fuel]; [lia|].
    destruct (lookup_lt_is_Some_2 s (S j) Hlen) as [c Hc].
    rewrite (lastOnUpto_step fuel (S j) s c Hc), (take_S_r s (S j) c Hc).
    destruct (Z.eqb_spec c.2 1) as [Hon|Hoff].
    + right. exists (S j), c. repeat split; [lia | exact Hc | exact Hon |].
      rewrite drop_ge by (rewrite length_app, length_take; cbn [length]; lia). constructor.
    + replace (Z.of_nat (S j) - 1) with (Z.of_nat j) by lia.
      destruct (IH fuel) as [[Hall Hnone]|(k & c' & Hk & Hsk & Hon & Hafter & Hidx)];
        [lia | lia | |].
      * left. split; [|exact Hnone].
        apply Forall_app. split; [exact Hall | repeat constructor; exact Hoff].
      * right. exists k, c'. repeat split; [lia | exact Hsk | exact Hon | | exact Hidx].
        rewrite drop_app_le by (rewrite length_take; lia).
        apply Forall_app. split; [exact Hafter | repeat constructor; exact Hoff].
Qed.

(** [trimBeamOff] cuts the beam-off samples before the first and after
    the last beam-on sample. *)
Lemma trimBeamOff_spec (s : list VectorCoord) :
  (Forall beam_off s /\ trimBeamOff s = []) \/
  (exists pre post first final,
      s = pre ++ trimBeamOff s ++ post /\
      Forall beam_off pre /\ Forall beam_off post /\
      head (trimBeamOff s) = Some first /\ first.2 = 1 /\
      last (trimBeamOff s) = Some final /\ final.2 = 1).
Proof.
  destruct s as [|c0 s0]; [left; split; [constructor | reflexivity]|].
  set (s := c0 :: s0).
  destruct (firstOnFrom_spec s 0) as [[Hall Hnone]|(pre & c & rest & Hs & Hpre & Hon & Hfirst)];
    [lia | | ].
  - left. split; [exact Hall|].
    change (trimBeamOff s) with
      (let firstOn := firstOnFrom 0 s in
       if firstOn =? -1 then []
       else slice s firstOn
              (lastOnUpto (length s) (Z.of_nat (length s) - 1) s + 1)).
    cbn zeta. rewrite Hnone. reflexivity.
  - right.
    assert (Hlen : (length s - 1 < length s)%nat) by (subst s; cbn; lia).
    destruct (lastOnUpto_spec s (length s - 1) (length s))
      as [[Hall _]|(k & c' & Hk & Hsk & Hon' & Hafter & Hlast)]; [lia | exact Hlen | |].
    + exfalso. replace (S (length s - 1)) with (length s) in Hall by lia.
      rewrite firstn_all in Hall. rewrite Hs in Hall.
      apply Forall_app in Hall as [_ Hall]. inversion Hall as [|? ? Hc _]; subst.
      apply Hc, Hon.
    + replace (S (length s - 1)) with (length s) in Hafter by lia.
      rewrite firstn_all in Hafter.
      assert (Hge : (length pre <= k)%nat).
      { destruct (Nat.le_gt_cases (length pre) k) as [|Hlt]; [assumption|exfalso].
        assert (Hin : c ∈ drop (S k) s).
        { apply list_elem_of_lookup. exists (length pre - S k)%nat.
          rewrite lookup_drop. replace (S k + (length pre - S k))%nat with (length pre) by lia.
          rewrite Hs. rewrite list_lookup_middle; reflexivity. }
        rewrite Forall_forall in Hafter. exact (Hafter c Hin Hon). }
      assert (Htrim : trimBeamOff s = take (S k - length pre) (c :: rest)).
      { change (trimBeamOff s) with
          (let firstOn := firstOnFrom 0 s in
           if firstOn =? -1 then []
           else slice s firstOn
                  (lastOnUpto (length s) (Z.of_nat (length s) - 1) s + 1)).
        cbn zeta. rewrite Hfirst.
        destruct (Z.eqb_spec (0 + Z.of_nat (length pre)) (-1)) as [|_]; [lia|].
        replace (Z.of_nat (length s) - 1) with (Z.of_nat (length s - 1)) by lia.
        rewrite Hlast. unfold slice.
        replace (Z.to_nat (Z.of_nat k + 1 - (0 + Z.of_nat (length pre))))
          with (S k - length pre)%nat by lia.
        replace (Z.to_nat (0 + Z.of_nat (length pre))) with (length pre) by lia.
        rewrite Hs, drop_app_length. reflexivity. }
      exists pre, (drop (S k) s), c, c'.
      rewrite Htrim. repeat split.
      * rewrite Hs at 1. f_equal.
        rewrite <- (take_drop (S k - length pre) (c :: rest)) at 1. f_equal.
        rewrite Hs. rewrite drop_app_ge by lia. reflexivity.
      * exact Hpre.
      * exact Hafter.
      * destruct (S k - length pre)%nat eqn:E; [lia | reflexivity].
      * exact Hon.
      * rewrite last_lookup, length_take.
        assert (Hkr : (k - length pre < length (c :: rest))%nat).
        { apply lookup_lt_Some in Hsk. rewrite Hs, length_app in Hsk. lia. }
        replace (Init.Nat.pred ((S k - length pre) `min` length (c :: rest)))
          with (k - length pre)%nat by lia.
        rewrite lookup_take_lt by lia.
        rewrite Hs in Hsk. rewrite lookup_app_r in Hsk by exact Hge. exact Hsk.
      * exact Hon'.
Qed.

Example trimBeamOff_example :
  trimBeamOff [(0, 0, 0); (1, 0, 1); (1, 1, 0); (2, 1, 1); (2, 2, 0)] =
    [(1, 0, 1); (1, 1, 0); (2, 1, 1)].
Proof. reflexivity. Qed.

(** C3, as the code has it.  [simplifyVector] removes the samples that
    are identical, in all three fields, to the sample just before them and
    trims nothing: the output has no two identical neighbours and keeps the
    first and the last sample of its input, beam off or not.  Trimming is
    the separate [trimBeamOff], which [simplifyVector] does not call: it
    returns the part of the sequence from its first to its last sample of
    intensity 1, which is the empty sequence when there is none. *)
Theorem simplifyVector_removes_repeats_only (s : list VectorCoord) :
  simplifyVector s = Reference.remove_repeats s /\
  no_adjacent_repeat (simplifyVector s) /\
  head (simplifyVector s) = head s /\
  last (simplifyVector s) = last s /\
  ((Forall beam_off s /\ trimBeamOff s = []) \/
   (exists pre post first final,
       s = pre ++ trimBeamOff s ++ post /\
       Forall beam_off pre /\ Forall beam_off post /\
       head (trimBeamOff s) = Some first /\ first.2 = 1 /\
       last (trimBeamOff s) = Some final /\ final.2 = 1)).
Proof.
  unfold simplifyVector. rewrite deduplicateAdjacent_remove_repeats.
  split; [reflexivity|].
  split; [|split; [|split; [|apply trimBeamOff_spec]]].
  - destruct s as [|c s]; [exact I | apply after_no_repeat].
  - destruct s; reflexivity.
  - destruct s as [|c s]; [reflexivity | apply after_last].
Qed.

(** C3 at a concrete sequence: the beam-off samples around the strokes
    survive the simplifier, with one repeat removed. *)
Lemma simplifyVector_removes_repeats_only_witness :
  simplifyVector [(0, 0, 0); (0, 0, 0); (1, 0, 1); (1, 1, 0)] =
    [(0, 0, 0); (1, 0, 1); (1, 1, 0)] /\
  trimBeamOff [(0, 0, 0); (0, 0, 0); (1, 0, 1); (1, 1, 0)] = [(1, 0, 1)].
Proof.
  split; [|reflexivity].
  exact (proj1 (simplifyVector_removes_repeats_only
                  [(0, 0, 0); (0, 0, 0); (1, 0, 1); (1, 1, 0)])).
Defined.

(** C3 as stated fails: the rows of a blank character decode to beam-off
    samples only, and their simplification is not empty; leading and
    trailing beam-off samples around a stroke are kept. *)
Lemma simplifyVector_does_not_trim :
  Forall (fun c : VectorCoord => c.2 = 0) (binaryToVector [0; 0; 0]) /\
  simplifyVector (binaryToVector [0; 0; 0]) = [(0, 0, 0)] /\
  simplifyVector [(0, 0, 0); (1, 0, 1); (1, 1, 0)] = [(0, 0, 0); (1, 0, 1); (1, 1, 0)].
Proof.
  split; [repeat constructor | split; reflexivity].
Qed.

(** C9.  The simplifier is idempotent, and its output is a subsequence of
    its input, in the input's order. *)
Theorem simplifyVector_idempotent (s : list VectorCoord) :
  simplifyVector (simplifyVector s) = simplifyVector s /\
  sublist (simplifyVector s) s.
Proof.
  unfold simplifyVector. rewrite !deduplicateAdjacent_remove_repeats.
  destruct s as [|c s]; cbn [Reference.remove_repeats].
  - split; [reflexivity | constructor].
  - split.
    + rewrite after_idem. reflexivity.
    + apply sublist_skip, after_sublist.
Qed.

End Simplifier.

(** ** Physics pipeline *)

Section Physics.

Lemma subsampleStep_length sx sy beam xc yc xg yg rz st :
  length (filteredPositions (subsampleStep sx sy beam xc yc xg yg rz st)) =
    S (length (filteredPositions st)).
Proof.
  unfold subsampleStep.
  destruct (applyBiquad sx (xState st) xc), (applyBiquad sy (yState st) yc).
  cbn [filteredPositions]. rewrite length_app. cbn. lia.
Qed.

Lemma subsample_loop_length sx sy beam xc yc xg yg rz (n : nat) st :
  length (filteredPositions
            (Nat.iter n (subsampleStep sx sy beam xc yc xg yg rz) st)) =
    (n + length (filteredPositions st))%nat.
Proof.
  induction n as [|n IH]; [reflexivity|].
  rewrite Nat.iter_succ, subsampleStep_length, IH. lia.
Qed.

Lemma physicsRow_length n cs xc yc xg yg rz st row :
  length (filteredPositions (physicsRow n cs xc yc xg yg rz st row)) =
    (Z.to_nat n + length (filteredPositions st))%nat.
Proof.
  destruct row as [[rx ry] rb]. unfold physicsRow. apply subsample_loop_length.
Qed.

Lemma physics_rows_length n cs xc yc xg yg rz rows : forall st,
  length (filteredPositions (fold_left (physicsRow n cs xc yc xg yg rz) rows st)) =
    (length rows * Z.to_nat n + length (filteredPositions st))%nat.
Proof.
  induction rows as [|row rows IH]; intros st; [reflexivity|].
  cbn [fold_left length]. rewrite IH, physicsRow_length. lia.
Qed.

(** C4.  For a non-negative subsample factor the pipeline returns exactly
    one position per raw sample and repetition; an empty input yields an
    empty output. *)
Theorem processCharacterPhysics_length
    (vectorData : list VectorCoord) (subsampleFactor : Z) (xyCoeffs : BiquadCoeffs)
    (retentionZ characterScale : float) (options : PhysicsOptions) :
  0 <= subsampleFactor ->
  Z.of_nat (length (processCharacterPhysics vectorData subsampleFactor xyCoeffs
                      retentionZ characterScale options)) =
    Z.of_nat (length vectorData) * subsampleFactor /\
  processCharacterPhysics [] subsampleFactor xyCoeffs retentionZ characterScale options = [].
Proof.
  intros Hn. split; [|reflexivity].
  unfold processCharacterPhysics.
  destruct vectorData as [|[[fx fy] fb] rest]; [cbn; lia|].
  rewrite physics_rows_length. cbn [filteredPositions length]. lia.
Qed.

(** C4 at a two-sample stroke replicated three times. *)
Lemma processCharacterPhysics_length_witness :
  Z.of_nat (length (processCharacterPhysics [(0, 0, 0); (2, 1, 1)] 3
                      (mkCoeffs 0.25 0.5 0.25 0 0) 0.5 2
                      (mkOptions None None None))) = 2 * 3.
Proof.
  apply (processCharacterPhysics_length [(0, 0, 0); (2, 1, 1)] 3). lia.
Defined.

(** With retention 0 and an all-pass biquad the pipeline just repeats the
    scaled samples. *)
Example processCharacterPhysics_example :
  processCharacterPhysics [(1, 2, 1)] 2 (mkCoeffs 1 0 0 0 0) 0 2 (mkOptions None None None)
  = [mkPosition 2 4 1; mkPosition 2 4 1].
Proof. reflexivity. Qed.

(** C5, as the code has it.  [scaledToCanvas] takes pixels-per-unit to be
    cellPixelSize / (8 * characterScale), scales the input coordinates by
    that factor and the origin offset, given in base units, by
    characterScale times that factor, and returns
    (offsetX + pixelX, cellPixelSize - offsetY - pixelY). *)
Theorem scaledToCanvas_formula
    (scaledX scaledY cellPixelSize characterScale originOffsetX originOffsetY : float) :
  BASE_CELL_SIZE = 8%float /\
  scaledToCanvas scaledX scaledY cellPixelSize characterScale originOffsetX originOffsetY =
    (let pixelsPerUnit := cellPixelSize / (8 * characterScale) in
     (originOffsetX * characterScale * pixelsPerUnit + scaledX * pixelsPerUnit,
      cellPixelSize - originOffsetY * characterScale * pixelsPerUnit
        - scaledY * pixelsPerUnit))%float.
Proof. split; reflexivity. Qed.

(** C5 as stated fails at character scale 2: a 16-pixel cell with origin
    offset (1,1) puts the origin at pixel (2,14), not at (1,15). *)
Lemma scaledToCanvas_offset_counterexample :
  scaledToCanvas 0 0 16 2 1 1 = (2%float, 14%float) /\
  toRaster_one_factor 0 0 16 2 1 1 = (1%float, 15%float) /\
  PrimFloat.eqb 2 1 = false /\ PrimFloat.eqb 14 15 = false.
Proof. repeat split. Qed.

End Physics.

(** ** Gaussian renderer *)

Section GaussianRenderer.

Context `{HostMath}.

Lemma SFcompare_antisym (a b : spec_float) :
  SFcompare b a = option_map CompOpp (SFcompare a b).
Proof.
  destruct a as [sa|sa| |sa ma ea], b as [sb|sb| |sb mb eb];
    try destruct sa; try destruct sb; cbn; try reflexivity;
    rewrite (Z.compare_antisym ea eb); destruct (ea ?= eb); cbn; try reflexivity;
    rewrite (Pos.compare_cont_antisym ma mb Eq); cbn;
    destruct (Pos.compare_cont Eq ma mb); reflexivity.
Qed.




End GaussianRenderer.

(** ** Gaussian spot accumulator *)

Section Accumulator.

Lemma add_at_lookup (a : list float) (j : Z) (d : float) (i : nat) :
  0 <= j ->
  JS.Float32Array_set a j (JS.Float32Array_get a j + d)%float !! i =
    if bool_decide (Z.of_nat i = j) then bump d <$> a !! i else a !! i.
Proof.
  intros Hj. unfold JS.Float32Array_set, JS.Float32Array_get.
  destruct (Z.ltb_spec j 0) as [|_]; [lia|].
  rewrite list_lookup_insert.
  case_bool_decide as Hij.
  - assert (Z.to_nat j = i) as -> by lia.
    destruct (a !! i) as [old|] eqn:Ei.
    + apply lookup_lt_Some in Ei as Hlt.
      rewrite decide_True by auto. reflexivity.
    + apply lookup_ge_None in Ei as Hge.
      rewrite decide_False by lia. reflexivity.
  - rewrite decide_False by lia. reflexivity.
Qed.

(** A loop whose every step acts on cell [i] by a function of the cell
    alone acts on cell [i] by the composition of those functions. *)
Lemma fold_lookup {K} (T : list float -> K -> list float)
    (upd : K -> option float -> option float) (i : nat) (l : list K) :
  (forall k a, k ∈ l -> T a k !! i = upd k (a !! i)) ->
  forall a, fold_left T l a !! i = fold_left (fun o k => upd k o) l (a !! i).
Proof.
  induction l as [|k l IH]; intros HT a; [reflexivity|].
  cbn [fold_left]. rewrite IH.
  - rewrite HT by left. reflexivity.
  - intros k' a' Hin. apply HT. right. exact Hin.
Qed.

(** Among distinct loop values only [k0] (and only under [c]) touches the
    cell. *)
Lemma fold_single_hit {K} `{EqDecision K} (upd : K -> option float -> option float)
    (k0 : K) (c : bool) (f : option float -> option float) (l : list K) :
  NoDup l ->
  (forall k o, k ∈ l -> upd k o = if bool_decide (k = k0) && c then f o else o) ->
  forall o, fold_left (fun o k => upd k o) l o =
            if bool_decide (k0 ∈ l) && c then f o else o.
Proof.
  induction 1 as [|k l Hnotin Hnd IH]; intros Hupd o.
  - cbn. rewrite bool_decide_eq_false_2 by apply not_elem_of_nil. reflexivity.
  - cbn [fold_left]. rewrite IH by (intros; apply Hupd; right; assumption).
    rewrite Hupd by left.
    destruct c; rewrite ?andb_false_r; [|reflexivity]. rewrite !andb_true_r.
    destruct (decide (k = k0)) as [<-|Hk].
    + rewrite (bool_decide_eq_true_2 (k = k)) by reflexivity.
      rewrite (bool_decide_eq_false_2 (k ∈ l)) by assumption.
      rewrite (bool_decide_eq_true_2 (k ∈ k :: l)) by left. reflexivity.
    + rewrite (bool_decide_eq_false_2 (k = k0)) by assumption.
      destruct (decide (k0 ∈ l)) as [Hin|Hout].
      * rewrite (bool_decide_eq_true_2 (k0 ∈ l)) by assumption.
        rewrite (bool_decide_eq_true_2 (k0 ∈ k :: l)) by (right; assumption).
        reflexivity.
      * rewrite (bool_decide_eq_false_2 (k0 ∈ l)) by assumption.
        rewrite (bool_decide_eq_false_2 (k0 ∈ k :: l)); [reflexivity|].
        rewrite elem_of_cons. intros [->|]; contradiction.
Qed.

Lemma elem_of_range_below (n k : Z) : k ∈ range_below n <-> 0 <= k < n.
Proof. unfold range_below. rewrite elem_of_seqZ. lia. Qed.

(** The inner loop of [accumulateGaussian], for the buffer row [py]. *)
Lemma accumulate_row_lookup (wts : list float) (width startX py n ky : Z)
    (intensity : float) (i : nat) (a : list float) :
  0 <= py ->
  fold_left (fun buffer kx =>
        let px := startX + kx in
        if (px <? 0) || (px >=? width) then buffer
        else
          let weight := JS.Float32Array_get wts (ky * n + kx) in
          let bufIdx := py * width + px in
          JS.Float32Array_set buffer bufIdx
            (JS.Float32Array_get buffer bufIdx + intensity * weight)%float)
        (range_below n) a !! i =
    let kx0 := Z.of_nat i - py * width - startX in
    if bool_decide (0 <= kx0 < n) && ((0 <=? startX + kx0) && (startX + kx0 <? width))
    then bump (intensity * JS.Float32Array_get wts (ky * n + kx0)) <$> a !! i
    else a !! i.
Proof.
  intros Hpy. cbn zeta.
  set (kx0 := Z.of_nat i - py * width - startX).
  set (c := (0 <=? startX + kx0) && (startX + kx0 <? width)).
  set (f := fun o : option float =>
              bump (intensity * JS.Float32Array_get wts (ky * n + kx0)) <$> o).
  rewrite (fold_lookup _
             (fun kx o => if bool_decide (kx = kx0) && c then f o else o)).
  - rewrite (fold_single_hit _ kx0 c f).
    + rewrite (bool_decide_ext (kx0 ∈ range_below n) (0 <= kx0 < n))
        by apply elem_of_range_below.
      reflexivity.
    + apply NoDup_seqZ.
    + reflexivity.
  - intros kx b _.
    destruct (Z.ltb_spec (startX + kx) 0) as [Hlo|Hlo]; cbn [orb].
    + rewrite (proj2 (andb_false_iff _ c)); [reflexivity|].
      destruct (decide (kx = kx0)) as [->|Hne].
      * right. subst c. apply andb_false_iff. left. apply Z.leb_gt. exact Hlo.
      * left. apply bool_decide_eq_false_2. exact Hne.
    + destruct (Z.geb_spec (startX + kx) width) as [Hhi|Hhi].
      * rewrite (proj2 (andb_false_iff _ c)); [reflexivity|].
        destruct (decide (kx = kx0)) as [->|Hne].
        -- right. subst c. apply andb_false_iff. right. apply Z.ltb_ge. lia.
        -- left. apply bool_decide_eq_false_2. exact Hne.
      * rewrite add_at_lookup by nia.
        destruct (decide (kx = kx0)) as [->|Hne].
        -- rewrite bool_decide_eq_true_2 by (subst kx0; lia).
           rewrite (bool_decide_eq_true_2 (kx0 = kx0)) by reflexivity.
           assert (c = true) as -> by (subst c; lia). reflexivity.
        -- rewrite bool_decide_eq_false_2 by (subst kx0; lia).
           rewrite (bool_decide_eq_false_2 (kx = kx0)) by assumption. reflexivity.
Qed.

Lemma cell_of_index (width i py : Z) :
  0 <= i - py * width < width -> py = i / width /\ i - py * width = i mod width.
Proof.
  intros Hpx.
  assert (py = i / width) as Hq
    by (apply (Z.div_unique_pos i width py (i - py * width)); lia).
  split; [exact Hq|].
  rewrite Z.mod_eq by lia. subst py. lia.
Qed.

(** The content of every cell after a call with a finite centre, by its
    index. *)
Lemma accumulateGaussian_lookup (buffer : list float) (width height : Z)
    (cx cy intensity : float) (kernel : GaussianKernel) (fx fy : Z) (i : nat) :
  JS.Math_floor cx = Some fx -> JS.Math_floor cy = Some fy ->
  let n := Kernel.radius kernel * 2 + 1 in
  let py0 := Z.of_nat i / width in
  let px0 := Z.of_nat i mod width in
  let ky0 := py0 - (fy - Kernel.radius kernel) in
  let kx0 := px0 - (fx - Kernel.radius kernel) in
  accumulateGaussian buffer width height cx cy intensity kernel !! i =
    if bool_decide (0 <= ky0 < n) &&
       (bool_decide (0 < width /\ 0 <= py0 < height) && bool_decide (0 <= kx0 < n))
    then bump (intensity * JS.Float32Array_get (Kernel.weights kernel) (ky0 * n + kx0))
           <$> buffer !! i
    else buffer !! i.
Proof.
  intros Hfx Hfy. cbn zeta. unfold accumulateGaussian. rewrite Hfx, Hfy.
  set (r := Kernel.radius kernel). set (n := r * 2 + 1).
  set (startX := fx - r). set (startY := fy - r).
  set (py0 := Z.of_nat i / width). set (px0 := Z.of_nat i mod width).
  set (ky0 := py0 - startY). set (kx0 := px0 - startX).
  set (c := bool_decide (0 < width /\ 0 <= py0 < height) && bool_decide (0 <= kx0 < n)).
  set (f := fun o : option float =>
              bump (intensity * JS.Float32Array_get (Kernel.weights kernel) (ky0 * n + kx0))
                <$> o).
  rewrite (fold_lookup _
             (fun ky o => if bool_decide (ky = ky0) && c then f o else o)).
  - rewrite (fold_single_hit _ ky0 c f).
    + rewrite (bool_decide_ext (ky0 ∈ range_below n) (0 <= ky0 < n))
        by apply elem_of_range_below.
      reflexivity.
    + apply NoDup_seqZ.
    + reflexivity.
  - intros ky a _. cbn zeta.
    assert (Hmiss : forall o : option float,
              ~ (0 < width /\ 0 <= startY + ky < height /\
                 0 <= Z.of_nat i - (startY + ky) * width < width /\
                 0 <= Z.of_nat i - (startY + ky) * width - startX < n) ->
              (if bool_decide (ky = ky0) && c then f o else o) = o).
    { intros o Hno.
      destruct (decide (ky = ky0)) as [->|Hne];
        [|rewrite (bool_decide_eq_false_2 (ky = ky0)) by assumption; reflexivity].
      rewrite (proj2 (andb_false_iff _ c)); [reflexivity|]. right.
      subst c. apply andb_false_iff.
      destruct (decide (0 < width /\ 0 <= py0 < height)) as [[Hw Hpy]|Hout];
        [|left; apply bool_decide_eq_false_2; exact Hout].
      right. apply bool_decide_eq_false_2. intros Hkx. apply Hno.
      pose proof (Z.mod_pos_bound (Z.of_nat i) width Hw) as Hmod.
      assert (Z.of_nat i - (startY + ky0) * width = px0) as Hpx.
      { subst ky0 px0 py0. rewrite Z.mod_eq by lia. lia. }
      rewrite Hpx. subst ky0. repeat split; try lia; fold px0; lia. }
    destruct (Z.ltb_spec (startY + ky) 0) as [Hlo|Hlo]; cbn [orb];
      [rewrite Hmiss by lia; reflexivity|].
    destruct (Z.geb_spec (startY + ky) height) as [Hhi|Hhi];
      [rewrite Hmiss by lia; reflexivity|].
    rewrite accumulate_row_lookup by lia. cbn zeta.
    set (kx' := Z.of_nat i - (startY + ky) * width - startX).
    destruct (decide (0 <= kx' < n /\ 0 <= startX + kx' < width)) as [[Hk Hp]|Hno].
    + assert (startX + kx' = Z.of_nat i - (startY + ky) * width) as Hpx by (subst kx'; lia).
      rewrite Hpx in Hp. destruct (cell_of_index _ _ _ Hp) as [Hpy Hmod].
      assert (ky = ky0) as -> by (subst ky0 py0; lia).
      assert (kx' = kx0) as Hkx by (subst kx' kx0 px0; rewrite <- Hmod; lia).
      rewrite bool_decide_eq_true_2 by exact Hk.
      rewrite (bool_decide_eq_true_2 (ky0 = ky0)) by reflexivity.
      assert (c = true) as ->.
      { subst c. apply andb_true_iff. split; apply bool_decide_eq_true_2.
        - fold py0 in Hpy. lia.
        - rewrite <- Hkx. exact Hk. }
      assert ((0 <=? startX + kx') && (startX + kx' <? width) = true) as -> by lia.
      cbn [andb]. subst f. cbn beta. rewrite Hkx. reflexivity.
    + rewrite Hmiss.
      * destruct (decide (0 <= kx' < n)) as [Hk|Hk].
        -- rewrite (proj2 (andb_false_iff _ _)); [reflexivity|]. right. lia.
        -- rewrite bool_decide_eq_false_2 by exact Hk. reflexivity.
      * intros (Hw & Hpy & Hpx & Hkx). apply Hno. subst kx'. lia.
Qed.

Lemma Float32Array_set_length (a : list float) (j : Z) (v : float) :
  length (JS.Float32Array_set a j v) = length a.
Proof.
  unfold JS.Float32Array_set. destruct (j <? 0); [reflexivity|]. apply length_insert.
Qed.

Lemma fold_left_length {K} (T : list float -> K -> list float) (l : list K) :
  (forall a k, length (T a k) = length a) ->
  forall a, length (fold_left T l a) = length a.
Proof.
  intros HT. induction l as [|k l IH]; intros a; [reflexivity|].
  cbn [fold_left]. rewrite IH. apply HT.
Qed.

Lemma accumulateGaussian_length buffer width height cx cy intensity kernel :
  length (accumulateGaussian buffer width height cx cy intensity kernel) = length buffer.
Proof.
  unfold accumulateGaussian.
  destruct (JS.Math_floor cx) as [fx|]; [|reflexivity].
  destruct (JS.Math_floor cy) as [fy|]; [|reflexivity].
  apply fold_left_length. intros a ky. cbn zeta.
  destruct (_ || _); [reflexivity|].
  apply fold_left_length. intros a' kx. cbn zeta.
  destruct (_ || _); [reflexivity|]. apply Float32Array_set_length.
Qed.

(** C7.  A call of [accumulateGaussian] adds intensity * weight to the
    cells (px, py) that lie in the kernel footprint, the (2r+1) x (2r+1)
    square around the floored centre, and within 0 <= px < width,
    0 <= py < height, each from its own kernel cell; every other cell of
    the buffer, and anything at an index that is no cell of the
    width x height grid, is left as it was, and the buffer keeps its
    length.  A centre that is not a finite number has no footprint: the
    buffer is left as it was. *)
Theorem accumulateGaussian_frame (buffer : list float) (width height : Z)
    (cx cy intensity : float) (kernel : GaussianKernel) :
  let r := Kernel.radius kernel in
  let buffer' := accumulateGaussian buffer width height cx cy intensity kernel in
  length buffer' = length buffer /\
  match JS.Math_floor cx, JS.Math_floor cy with
  | Some fx, Some fy =>
      forall i : nat,
        (forall px py : Z,
            0 <= px < width -> 0 <= py < height -> Z.of_nat i = py * width + px ->
            buffer' !! i =
              if bool_decide (fx - r <= px <= fx + r /\ fy - r <= py <= fy + r)
              then (fun old =>
                      JS.fround (old + intensity
                                       * kernelWeight kernel (px - (fx - r)) (py - (fy - r))))
                     <$> buffer !! i
              else buffer !! i) /\
        (~ (exists px py : Z,
               0 <= px < width /\ 0 <= py < height /\ Z.of_nat i = py * width + px) ->
         buffer' !! i = buffer !! i)
  | _, _ => buffer' = buffer
  end.
Proof.
  cbn zeta. split; [apply accumulateGaussian_length|].
  destruct (JS.Math_floor cx) as [fx|] eqn:Hfx;
    [|unfold accumulateGaussian; rewrite Hfx; reflexivity].
  destruct (JS.Math_floor cy) as [fy|] eqn:Hfy;
    [|unfold accumulateGaussian; rewrite Hfx, Hfy; reflexivity].
  intros i. pose proof (accumulateGaussian_lookup buffer width height cx cy
                          intensity kernel fx fy i Hfx Hfy) as Hlook.
  cbn zeta in Hlook.
  split.
  - intros px py Hpx Hpy Hi. rewrite Hlook. clear Hlook.
    assert (0 <= Z.of_nat i - py * width < width) as Hcell by lia.
    destruct (cell_of_index _ _ _ Hcell) as [Hq Hm].
    rewrite <- Hq. replace (Z.of_nat i mod width) with px by lia.
    rewrite (bool_decide_eq_true_2 (0 < width /\ 0 <= py < height)) by lia.
    cbn [andb].
    set (r := Kernel.radius kernel) in *.
    destruct (decide (fx - r <= px <= fx + r /\ fy - r <= py <= fy + r)) as [Hin|Hout].
    + rewrite !bool_decide_eq_true_2 by lia. reflexivity.
    + rewrite (bool_decide_eq_false_2 _ Hout).
      destruct (decide (0 <= py - (fy - r) < r * 2 + 1)) as [Hy|Hy].
      * rewrite (bool_decide_eq_true_2 _ Hy). cbn [andb].
        rewrite bool_decide_eq_false_2 by lia. reflexivity.
      * rewrite (bool_decide_eq_false_2 _ Hy). reflexivity.
  - intros Hnone. rewrite Hlook. clear Hlook.
    destruct (decide (0 < width /\ 0 <= Z.of_nat i / width < height)) as [[Hw Hpy]|Hout].
    + exfalso. apply Hnone. exists (Z.of_nat i mod width), (Z.of_nat i / width).
      pose proof (Z.mod_pos_bound (Z.of_nat i) width Hw).
      pose proof (Z.div_mod (Z.of_nat i) width). lia.
    + rewrite (bool_decide_eq_false_2 _ Hout). rewrite andb_false_r. reflexivity.
Qed.

(** C7 on a 3 x 2 buffer with a radius-1 kernel centred in the corner
    cell (0,0): the four cells of the footprint that lie in the buffer take
    their weights, the column x = 2 keeps its content, and so does a cell
    past the grid; a NaN centre changes nothing. *)
Lemma accumulateGaussian_frame_witness :
  accumulateGaussian [1; 1; 1; 1; 1; 1; 5]%float 3 2 0.5 0.25 2
    (Kernel.mk [0.125; 0.25; 0.125; 0.25; 1; 0.25; 0.125; 0.25; 0.125]%float 1 0.5)
  = [3; 1.5; 1; 1.5; 1.25; 1; 5]%float /\
  accumulateGaussian [1; 1; 1; 1; 1; 1; 5]%float 3 2 0.5 0.25 2
    (Kernel.mk [0.125; 0.25; 0.125; 0.25; 1; 0.25; 0.125; 0.25; 0.125]%float 1 0.5)
    !! 2%nat = Some 1%float /\
  accumulateGaussian [1; 1; 1; 1; 1; 1; 5]%float 3 2 nan 0.25 2
    (Kernel.mk [0.125; 0.25; 0.125; 0.25; 1; 0.25; 0.125; 0.25; 0.125]%float 1 0.5)
  = [1; 1; 1; 1; 1; 1; 5]%float.
Proof.
  split; [reflexivity|]. split.
  - exact (proj1 (proj2 (accumulateGaussian_frame [1; 1; 1; 1; 1; 1; 5]%float 3 2 0.5 0.25 2
      (Kernel.mk [0.125; 0.25; 0.125; 0.25; 1; 0.25; 0.125; 0.25; 0.125]%float 1 0.5))
      2%nat) 2 0 ltac:(lia) ltac:(lia) ltac:(lia)).
  - exact (proj2 (accumulateGaussian_frame [1; 1; 1; 1; 1; 1; 5]%float 3 2 nan 0.25 2
      (Kernel.mk [0.125; 0.25; 0.125; 0.25; 1; 0.25; 0.125; 0.25; 0.125]%float 1 0.5))).
Defined.

End Accumulator.

(** ** Kernel provider *)

Section KernelProvider.

Context `{HostMath}.





Lemma getGaussianKernel_unfold (gaussianKernel : option GaussianKernel) (sigma : float) :
  getGaussianKernel gaussianKernel sigma =
    match gaussianKernel with
    | Some cached =>
        if (abs (Kernel.sigma cached - sigma) <? 0.001)%float
        then (cached, Some cached)
        else (freshKernel sigma, Some (freshKernel sigma))
    | None => (freshKernel sigma, Some (freshKernel sigma))
    end.
Proof. destruct gaussianKernel; reflexivity. Qed.

Lemma freshKernel_sigma (sigma : float) : Kernel.sigma (freshKernel sigma) = sigma.
Proof. reflexivity. Qed.





(** A repeated request for the sigma just served is answered from the
    cache, with the kernel a recomputation would give. *)
Lemma getGaussianKernel_repeat (s : float) :
  (abs (s - s) <? 0.001)%float = true ->
  fst (getGaussianKernel_calls None [s; s]) = [freshKernel s; freshKernel s].
Proof.
  intros Hit. cbn [getGaussianKernel_calls].
  rewrite !getGaussianKernel_unfold. rewrite freshKernel_sigma, Hit. reflexivity.
Qed.

End KernelProvider.


(** After a kernel for sigma = 1 was computed, a request for
    sigma = 1.0005 is answered from the cache, whatever the host: the
    kernel returned has radius 3 and sigma 1, where a recomputation has
    radius 4. *)
Lemma getGaussianKernel_stale_radius (M : HostMath) :
  Kernel.radius <$> (fst (getGaussianKernel_calls None [1; 1.0005]%float) !! 1%nat) = Some 3 /\
  Kernel.sigma <$> (fst (getGaussianKernel_calls None [1; 1.0005]%float) !! 1%nat)
    = Some 1%float /\
  Kernel.radius (freshKernel 1.0005%float) = 4.
Proof. repeat split; reflexivity. Qed.



(** ** The renderer on a concrete character *)

Example exampleRom_vector : getCharacterVector exampleRom "L" = [(0, 0, 1); (0, 1, 1); (1, 1, 0)].
Proof. reflexivity. Qed.


(** * Further properties *)

(** ** ROM decoder: invariants of the loop *)

Section DecoderInvariants.

Lemma axisMove_bound (F1 F2 : bool) (direction : Z) :
  direction = 1 \/ direction = -1 ->
  Z.abs (fst (axisMove F1 F2 direction)) <= 2 /\
  (snd (axisMove F1 F2 direction) = 1 \/ snd (axisMove F1 F2 direction) = -1).
Proof.
  intros Hd. unfold axisMove.
  destruct F1, F2; cbn [andb fst snd]; lia.
Qed.

Lemma decodeRow_wellFormed (st : DecoderLocals) (w : Z) :
  wellFormedLocals st ->
  wellFormedLocals (decodeRow st w) /\
  Z.abs (currentX (decodeRow st w) - currentX st) <= 2 /\
  Z.abs (currentY (decodeRow st w) - currentY st) <= 2.
Proof.
  intros (Hh & Hv & Hb & Hs).
  pose proof (decodeRow_unfold st w) as Hu. cbn zeta in Hu.
  destruct (axisMove_bound (Z.testbit w 4) (Z.testbit w 3) _ Hv) as [HdV HsV].
  destruct (axisMove_bound (Z.testbit w 2) (Z.testbit w 1) _ Hh) as [HdH HsH].
  set (beam := if Z.testbit w 0 then (if JS.Boolean (beamIntensity st) then 0 else 1)
               else beamIntensity st) in *.
  assert (Hbeam : beam = 0 \/ beam = 1).
  { subst beam. destruct (Z.testbit w 0); [|exact Hb].
    destruct (JS.Boolean (beamIntensity st)); auto. }
  destruct (withinBounds _ _); rewrite Hu;
    cbn [currentX currentY beamIntensity horizontalDirection verticalDirection vectorData];
    (split; [repeat split; try assumption | split; lia]).
  apply Forall_app. split; [exact Hs | constructor; [exact Hbeam | constructor]].
Qed.

Lemma initialLocals_wellFormed : wellFormedLocals initialLocals.
Proof. repeat split; cbn; auto. Qed.

Lemma decodeRows_wellFormed (ws : list Z) : forall st,
  wellFormedLocals st -> wellFormedLocals (decodeRows st ws).
Proof.
  induction ws as [|w ws IH]; intros st Hst; [exact Hst|].
  apply (IH (decodeRow st w)), decodeRow_wellFormed, Hst.
Qed.

(** X1.  Every sample the decoder returns has intensity 0 or 1, whatever
    the words; the direction signs it keeps are +1 or -1 throughout. *)
Theorem binaryToVector_intensity_binary (ws : list Z) :
  Forall (fun s : VectorCoord => s.2 = 0 \/ s.2 = 1) (binaryToVector ws) /\
  let st := decodeRows initialLocals ws in
  (horizontalDirection st = 1 \/ horizontalDirection st = -1) /\
  (verticalDirection st = 1 \/ verticalDirection st = -1).
Proof.
  destruct (decodeRows_wellFormed ws _ initialLocals_wellFormed) as (Hh & Hv & _ & Hs).
  rewrite binaryToVector_locals. auto.
Qed.

(** The diagnostics only grow. *)
Lemma warnings_snoc_nil (ws : list Z) (w : Z) :
  binaryToVector_warnings (ws ++ [w]) = [] ->
  binaryToVector_warnings ws = [] /\
  let st := decodeRows initialLocals (ws ++ [w]) in
  binaryToVector (ws ++ [w]) =
    binaryToVector ws ++ [(currentX st, currentY st, beamIntensity st)].
Proof.
  intros Hnil. destruct (decodeRows_emit_or_warn ws w) as [Hout Hin]. cbn zeta in *.
  set (st := decodeRows initialLocals (ws ++ [w])) in *.
  destruct (decide (0 <= currentX st <= 6 /\ 0 <= currentY st <= 6)) as [Hr|Hr].
  - destruct (Hin Hr) as [Hv Hw]. rewrite <- Hw. auto.
  - destruct (Hout Hr) as [_ Hw]. rewrite Hw in Hnil.
    apply app_eq_nil in Hnil as [_ Hnil]. discriminate Hnil.
Qed.

Lemma no_warning_chain (ws : list Z) :
  binaryToVector_warnings ws = [] ->
  let st := decodeRows initialLocals ws in
  let trace := (0, 0, 0) :: binaryToVector ws in
  (exists beam, last trace = Some (currentX st, currentY st, beam)) /\
  forall (i : nat) (a b : VectorCoord),
    trace !! i = Some a -> trace !! S i = Some b -> withinTwo a b.
Proof.
  induction ws as [|w ws IH] using rev_ind; intros Hnil; cbn zeta.
  - split; [exists 0; reflexivity|].
    intros i a b Ha Hb. destruct i; discriminate Hb.
  - destruct (warnings_snoc_nil ws w Hnil) as [Hnil' Hv]. cbn zeta in Hv.
    destruct (IH Hnil') as [[beam Hlast] Hchain]. cbn zeta in Hlast, Hchain.
    rewrite Hv. set (st' := decodeRows initialLocals (ws ++ [w])) in *.
    rewrite app_comm_cons.
    split; [exists (beamIntensity st'); apply last_snoc|].
    intros i a b Ha Hb. unfold VectorCoord in *.
    destruct (decide (i < length (binaryToVector ws))%nat) as [Hlt|Hge].
    + rewrite lookup_app_l in Ha by (unfold VectorCoord in *; cbn [length]; lia).
      rewrite lookup_app_l in Hb by (unfold VectorCoord in *; cbn [length]; lia).
      exact (Hchain i a b Ha Hb).
    + assert (Hi : i = length (binaryToVector ws)).
      { apply lookup_lt_Some in Hb. rewrite length_app in Hb. cbn [length] in Hb.
        unfold VectorCoord in *. lia. }
      unfold VectorCoord in *.
      rewrite lookup_app_l in Ha by (unfold VectorCoord in *; cbn [length]; lia).
      rewrite lookup_app_r in Hb by (unfold VectorCoord in *; cbn [length]; lia).
      cbn [length] in Hb.
      rewrite Hi, Nat.sub_diag in Hb.
      injection Hb as <-.
      rewrite last_lookup in Hlast. cbn [length Init.Nat.pred] in Hlast.
      rewrite Hi, Hlast in Ha. injection Ha as <-.
      unfold withinTwo. cbn [fst snd].
      subst st'. rewrite decodeRows_snoc.
      destruct (decodeRow_wellFormed (decodeRows initialLocals ws) w
                  (decodeRows_wellFormed ws _ initialLocals_wellFormed)) as (_ & Hx & Hy).
      split; assumption.
Qed.

(** X2.  When no row of a ROM entry leaves the grid (the decoder reports
    no diagnostic), it returns one sample per row, and each sample lies at
    most two grid units from the one before it on either axis, the first
    from the origin (0,0). *)
Theorem binaryToVector_steps_within_two (ws : list Z) :
  binaryToVector_warnings ws = [] ->
  length (binaryToVector ws) = length ws /\
  forall (i : nat) (a b : VectorCoord),
    ((0, 0, 0) :: binaryToVector ws) !! i = Some a ->
    ((0, 0, 0) :: binaryToVector ws) !! S i = Some b ->
    withinTwo a b.
Proof.
  intros Hnil. split.
  - destruct (decodeRows_mirrors ws _ _ mirrors_start) as (_ & _ & Hl).
    rewrite binaryToVector_warnings_locals in Hnil.
    rewrite binaryToVector_locals. rewrite Hnil in Hl. cbn in Hl. lia.
  - exact (proj2 (no_warning_chain ws Hnil)).
Qed.

Lemma binaryToVector_steps_within_two_witness :
  length (binaryToVector [1; 16; 10; 6; 2]) = 5%nat /\
  withinTwo (0, 1, 1) (2, 3, 1).
Proof.
  destruct (binaryToVector_steps_within_two [1; 16; 10; 6; 2]) as [Hlen Hchain];
    [reflexivity|].
  split; [exact Hlen|].
  exact (Hchain 2%nat (0, 1, 1) (2, 3, 1) eq_refl eq_refl).
Defined.

Lemma testbit_low5 (w i : Z) :
  0 <= i < 5 -> Z.testbit (Z.land w 31) i = Z.testbit w i.
Proof.
  intros Hi. rewrite Z.land_spec.
  assert (Z.testbit 31 i = true) as ->.
  { assert (i = 0 \/ i = 1 \/ i = 2 \/ i = 3 \/ i = 4) as [->|[->|[->|[->| ->]]]] by lia;
      reflexivity. }
  apply andb_true_r.
Qed.

Lemma decodeRow_low5 (st : DecoderLocals) (w : Z) :
  decodeRow st (Z.land w 31) = decodeRow st w.
Proof.
  pose proof (decodeRow_unfold st w) as Hu. pose proof (decodeRow_unfold st (Z.land w 31)) as Hu'.
  cbn zeta in Hu, Hu'. rewrite !testbit_low5 in Hu' by lia.
  rewrite Hu, Hu'. reflexivity.
Qed.

(** X3.  The decoder reads only the five flag bits of a word: bits above
    them, and the sign, change nothing. *)
Theorem binaryToVector_reads_five_bits (ws : list Z) :
  binaryToVector (map (fun w => Z.land w 31) ws) = binaryToVector ws /\
  binaryToVector_warnings (map (fun w => Z.land w 31) ws) = binaryToVector_warnings ws.
Proof.
  rewrite !binaryToVector_locals, !binaryToVector_warnings_locals.
  assert (H : forall st, decodeRows st (map (fun w => Z.land w 31) ws) = decodeRows st ws).
  { induction ws as [|w ws IH]; intros st; [reflexivity|].
    cbn [map]. change (decodeRows st (?a :: ?l)) with (decodeRows (decodeRow st a) l).
    rewrite decodeRow_low5. apply IH. }
  rewrite H. auto.
Qed.

Lemma decodeRows_prefix (ws : list Z) : forall st,
  vectorData st `prefix_of` vectorData (decodeRows st ws) /\
  warnings st `prefix_of` warnings (decodeRows st ws).
Proof.
  induction ws as [|w ws IH]; intros st; [split; reflexivity|].
  change (decodeRows st (w :: ws)) with (decodeRows (decodeRow st w) ws).
  destruct (IH (decodeRow st w)) as [Hv Hw].
  pose proof (decodeRow_unfold st w) as Hu. cbn zeta in Hu.
  destruct (withinBounds _ _); rewrite Hu in Hv, Hw |- *;
    cbn [vectorData warnings] in Hv, Hw; split; try assumption.
  - etrans; [|exact Hv]. apply prefix_app_r. reflexivity.
  - etrans; [|exact Hw]. apply prefix_app_r. reflexivity.
Qed.

(** X4.  Decoding is incremental: the samples and the diagnostics of the
    first rows of a ROM entry are a prefix of those of the whole entry. *)
Theorem binaryToVector_prefix (ws more : list Z) :
  binaryToVector ws `prefix_of` binaryToVector (ws ++ more) /\
  binaryToVector_warnings ws `prefix_of` binaryToVector_warnings (ws ++ more).
Proof.
  rewrite !binaryToVector_locals, !binaryToVector_warnings_locals.
  unfold decodeRows. rewrite fold_left_app.
  apply (decodeRows_prefix more).
Qed.

End DecoderInvariants.

(** ** The two clean-up passes of the decoder module *)

Section CleanupPasses.

Lemma trimBeamOff_unfold (s : list VectorCoord) :
  trimBeamOff s =
    if firstOnFrom 0 s =? -1 then []
    else slice s (firstOnFrom 0 s)
           (lastOnUpto (length s) (Z.of_nat (length s) - 1) s + 1).
Proof. destruct s; reflexivity. Qed.

Lemma firstOnFrom_app (pre : list VectorCoord) (c : VectorCoord) (rest : list VectorCoord) :
  forall i, Forall beam_off pre -> c.2 = 1 ->
  firstOnFrom i (pre ++ c :: rest) = i + Z.of_nat (length pre).
Proof.
  induction pre as [|[[px py] pb] pre IH]; intros i Hpre Hc.
  - destruct c as [[cx cy] cb]. cbn in Hc. subst cb. cbn. lia.
  - apply Forall_cons in Hpre as [Hp Hpre]. unfold beam_off in Hp. cbn [snd] in Hp.
    cbn [app firstOnFrom].
    destruct (Z.eqb_spec pb 1) as [Hon|_]; [contradiction|].
    rewrite IH by assumption. cbn [length]. lia.
Qed.

Lemma lastOnUpto_app (init : list VectorCoord) (c : VectorCoord) (post : list VectorCoord) :
  Forall beam_off post -> c.2 = 1 ->
  forall (n fuel : nat),
  (n <= length post)%nat -> (length init + n < fuel)%nat ->
  lastOnUpto fuel (Z.of_nat (length init + n)) (init ++ c :: post) = Z.of_nat (length init).
Proof.
  intros Hpost Hc. induction n as [|n IH]; intros fuel Hn Hf.
  - destruct fuel as [|fuel]; [lia|]. rewrite Nat.add_0_r.
    rewrite (lastOnUpto_step fuel (length init) _ c).
    + rewrite Hc. reflexivity.
    + rewrite lookup_app_r, Nat.sub_diag by lia. reflexivity.
  - destruct fuel as [|fuel]; [lia|].
    destruct (lookup_lt_is_Some_2 post n) as [d Hd]; [lia|].
    rewrite (lastOnUpto_step fuel (length init + S n) _ d).
    + assert (Hoff : d.2 <> 1) by exact (Forall_lookup_1 _ _ _ _ Hpost Hd).
      destruct (Z.eqb_spec d.2 1) as [Hon|_]; [contradiction|].
      replace (Z.of_nat (length init + S n) - 1) with (Z.of_nat (length init + n)) by lia.
      apply IH; lia.
    + rewrite lookup_app_r by lia.
      replace (length init + S n - length init)%nat with (S n) by lia. exact Hd.
Qed.

(** The trimmed sequence is the one segment that starts and ends with the
    beam on and has only beam-off samples around it. *)
Lemma trimBeamOff_segment (pre mid post : list VectorCoord) (first final : VectorCoord) :
  Forall beam_off pre -> Forall beam_off post ->
  head mid = Some first -> first.2 = 1 ->
  last mid = Some final -> final.2 = 1 ->
  trimBeamOff (pre ++ mid ++ post) = mid.
Proof.
  intros Hpre Hpost Hhead Hfirst Hlast Hfinal.
  apply head_Some in Hhead as [mid' Hmid].
  apply last_Some in Hlast as [init Hinit].
  rewrite trimBeamOff_unfold.
  assert (Hf : firstOnFrom 0 (pre ++ mid ++ post) = Z.of_nat (length pre)).
  { rewrite Hmid. cbn [app]. rewrite firstOnFrom_app by assumption. lia. }
  assert (Hl : lastOnUpto (length (pre ++ mid ++ post))
                 (Z.of_nat (length (pre ++ mid ++ post)) - 1) (pre ++ mid ++ post)
               = Z.of_nat (length (pre ++ init))).
  { assert (Hs : pre ++ mid ++ post = (pre ++ init) ++ final :: post).
    { rewrite Hinit, <- !app_assoc. reflexivity. }
    rewrite Hs.
    replace (Z.of_nat (length ((pre ++ init) ++ final :: post)) - 1)
      with (Z.of_nat (length (pre ++ init) + length post))
      by (rewrite (length_app (pre ++ init)); cbn [length]; lia).
    apply lastOnUpto_app; try assumption; [lia|].
    rewrite (length_app (pre ++ init)). cbn [length]. lia. }
  rewrite Hf, Hl.
  destruct (Z.eqb_spec (Z.of_nat (length pre)) (-1)) as [Hneg|_]; [lia|].
  unfold slice. rewrite Nat2Z.id, drop_app_length.
  replace (Z.to_nat (Z.of_nat (length (pre ++ init)) + 1 - Z.of_nat (length pre)))
    with (length mid)
    by (rewrite Hinit, !length_app; cbn [length]; lia).
  apply take_app_length.
Qed.

(** X5.  [trimBeamOff] returns exactly the lit span of its input: when
    the input is a run of beam-off samples, then a segment that begins and
    ends with an intensity-1 sample, then beam-off samples again, the
    result is that segment, interior beam-off samples included. *)
Theorem trimBeamOff_returns_lit_span
    (pre mid post : list VectorCoord) (first final : VectorCoord) :
  Forall beam_off pre -> Forall beam_off post ->
  head mid = Some first -> first.2 = 1 ->
  last mid = Some final -> final.2 = 1 ->
  trimBeamOff (pre ++ mid ++ post) = mid.
Proof. apply trimBeamOff_segment. Qed.

Lemma trimBeamOff_returns_lit_span_witness :
  trimBeamOff ([(0, 0, 0)] ++ [(1, 1, 1); (2, 2, 0); (3, 3, 1)] ++ [(4, 4, 0); (4, 4, 2)])
  = [(1, 1, 1); (2, 2, 0); (3, 3, 1)].
Proof.
  apply (trimBeamOff_returns_lit_span
           [(0, 0, 0)] [(1, 1, 1); (2, 2, 0); (3, 3, 1)] [(4, 4, 0); (4, 4, 2)]
           (1, 1, 1) (3, 3, 1)).
  - repeat constructor; unfold beam_off; cbn; lia.
  - repeat constructor; unfold beam_off; cbn; lia.
  - reflexivity.
  - reflexivity.
  - reflexivity.
  - reflexivity.
Defined.

Lemma trimBeamOff_all_off (s : list VectorCoord) :
  Forall beam_off s <-> trimBeamOff s = [].
Proof.
  split.
  - intros Hoff.
    destruct (trimBeamOff_spec s)
      as [[_ Hnil]|(pre & post & first & final & Hs & _ & _ & Hhead & Hon & _)];
      [exact Hnil|].
    exfalso. apply head_Some in Hhead as [rest Hrest].
    rewrite Hrest in Hs. rewrite Hs in Hoff.
    apply Forall_app in Hoff as [_ Hoff]. apply Forall_app in Hoff as [Hoff _].
    apply Forall_cons in Hoff as [Hoff _]. exact (Hoff Hon).
  - intros Hnil.
    destruct (trimBeamOff_spec s)
      as [[Hoff _]|(pre & post & first & final & _ & _ & _ & Hhead & _)];
      [exact Hoff|].
    rewrite Hnil in Hhead. discriminate Hhead.
Qed.

(** X6.  Trimming twice is trimming once, and the result is empty exactly
    when no sample of the input has intensity 1. *)
Theorem trimBeamOff_idempotent (s : list VectorCoord) :
  trimBeamOff (trimBeamOff s) = trimBeamOff s /\
  (trimBeamOff s = [] <-> Forall beam_off s).
Proof.
  split; [|symmetry; apply trimBeamOff_all_off].
  destruct (trimBeamOff_spec s)
    as [[_ Hnil]|(pre & post & first & final & _ & _ & _ & Hhead & Hon & Hlast & Hon')].
  - rewrite Hnil. reflexivity.
  - pose proof (trimBeamOff_segment [] (trimBeamOff s) [] first final
                  (Forall_nil_2 _) (Forall_nil_2 _) Hhead Hon Hlast Hon') as Hseg.
    rewrite app_nil_r in Hseg. exact Hseg.
Qed.

Lemma last_cons_default {A} (v : A) (l : list A) :
  last (v :: l) = Some (default v (last l)).
Proof. rewrite last_cons. destruct (last l); reflexivity. Qed.

Lemma after_app (l1 : list VectorCoord) : forall prev l2,
  Reference.after prev (l1 ++ l2) =
    Reference.after prev l1 ++ Reference.after (default prev (last l1)) l2.
Proof.
  induction l1 as [|c l1 IH]; intros prev l2; [reflexivity|].
  assert (Hd : default prev (last (c :: l1)) = default c (last l1)).
  { rewrite last_cons_default. reflexivity. }
  rewrite Hd. cbn [app Reference.after].
  destruct (decide (c = prev)); rewrite IH; reflexivity.
Qed.

Lemma remove_repeats_app (l1 l2 : list VectorCoord) :
  (forall x y, last l1 = Some x -> head l2 = Some y -> x <> y) ->
  Reference.remove_repeats (l1 ++ l2) =
    Reference.remove_repeats l1 ++ Reference.remove_repeats l2.
Proof.
  intros Hne. destruct l2 as [|c l2]; [rewrite !app_nil_r; reflexivity|].
  destruct l1 as [|v l1]; [reflexivity|].
  cbn [app Reference.remove_repeats]. rewrite after_app. cbn [Reference.after].
  destruct (decide (c = default v (last l1))) as [Heq|_]; [|reflexivity].
  exfalso. apply (Hne (default v (last l1)) c); [apply last_cons_default|reflexivity|].
  symmetry. exact Heq.
Qed.

Lemma after_beam_off (s : list VectorCoord) : forall prev,
  Forall beam_off s -> Forall beam_off (Reference.after prev s).
Proof.
  induction s as [|c s IH]; intros prev Hs; [constructor|].
  apply Forall_cons in Hs as [Hc Hs]. cbn [Reference.after].
  destruct (decide (c = prev)); [|constructor; [exact Hc|]]; apply IH, Hs.
Qed.

Lemma remove_repeats_beam_off (s : list VectorCoord) :
  Forall beam_off s -> Forall beam_off (Reference.remove_repeats s).
Proof.
  destruct s as [|c s]; intros Hs; [constructor|].
  apply Forall_cons in Hs as [Hc Hs].
  constructor; [exact Hc | apply after_beam_off, Hs].
Qed.

Lemma remove_repeats_ends (s : list VectorCoord) :
  head (Reference.remove_repeats s) = head s /\
  last (Reference.remove_repeats s) = last s.
Proof.
  destruct s as [|c s]; [split; reflexivity|].
  split; [reflexivity | apply after_last].
Qed.

(** X7.  The two passes commute: trimming the deduplicated sequence gives
    what deduplicating the trimmed sequence gives. *)
Theorem trimBeamOff_deduplicateAdjacent_commute (s : list VectorCoord) :
  trimBeamOff (deduplicateAdjacent s) = deduplicateAdjacent (trimBeamOff s).
Proof.
  rewrite !deduplicateAdjacent_remove_repeats.
  destruct (trimBeamOff_spec s)
    as [[Hoff Hnil]|(pre & post & first & final & Hs & Hpre & Hpost
                     & Hhead & Hon & Hlast & Hon')].
  - rewrite Hnil. apply trimBeamOff_all_off, remove_repeats_beam_off, Hoff.
  - remember (trimBeamOff s) as mid eqn:Hmid. clear Hmid. subst s.
    assert (Hsplit : Reference.remove_repeats (pre ++ mid ++ post) =
                     Reference.remove_repeats pre ++ Reference.remove_repeats mid
                       ++ Reference.remove_repeats post).
    { rewrite remove_repeats_app.
      - f_equal. apply remove_repeats_app.
        intros x y Hx Hy Heq. subst y. rewrite Hlast in Hx. injection Hx as <-.
        apply head_Some_elem_of in Hy.
        rewrite Forall_forall in Hpost. exact (Hpost _ Hy Hon').
      - intros x y Hx Hy Heq. subst y.
        apply last_Some_elem_of in Hx.
        rewrite Forall_forall in Hpre. apply (Hpre _ Hx).
        apply head_Some in Hhead as [rest ->]. cbn in Hy. injection Hy as <-. exact Hon. }
    rewrite Hsplit.
    destruct (remove_repeats_ends mid) as [Hh Hl].
    apply (trimBeamOff_segment _ _ _ first final).
    + apply remove_repeats_beam_off, Hpre.
    + apply remove_repeats_beam_off, Hpost.
    + rewrite Hh. exact Hhead.
    + exact Hon.
    + rewrite Hl. exact Hlast.
    + exact Hon'.
Qed.

Lemma after_fixed (s : list VectorCoord) : forall prev,
  no_adjacent_repeat (prev :: s) -> Reference.after prev s = s.
Proof.
  induction s as [|c s IH]; intros prev Hno; [reflexivity|].
  destruct Hno as [Hne Hno]. cbn [Reference.after].
  destruct (decide (c = prev)) as [Heq|_]; [congruence|].
  rewrite (IH c Hno). reflexivity.
Qed.

(** X8.  [deduplicateAdjacent] leaves a sequence as it is exactly when no
    two neighbours of it are identical; it never lengthens a sequence, and
    returns a non-empty result for a non-empty input. *)
Theorem deduplicateAdjacent_fixed_points (s : list VectorCoord) :
  (deduplicateAdjacent s = s <-> no_adjacent_repeat s) /\
  (length (deduplicateAdjacent s) <= length s)%nat /\
  (deduplicateAdjacent s = [] <-> s = []).
Proof.
  rewrite deduplicateAdjacent_remove_repeats.
  destruct s as [|c s].
  - repeat split; auto.
  - cbn [Reference.remove_repeats]. split; [split|split].
    + intros Heq. rewrite <- Heq. apply after_no_repeat.
    + intros Hno. rewrite (after_fixed s c Hno). reflexivity.
    + cbn [length]. pose proof (sublist_length _ _ (after_sublist s c)). lia.
    + split; discriminate.
Qed.

End CleanupPasses.

(** ** Vector renderer: the strokes of a character *)

Section VectorStrokes.

Lemma strokeLoop_from (p : StrokePlacement) (samples : list VectorCoord) :
  forall st,
  ctxCalls (fold_left (strokeStep p) samples st) =
    ctxCalls st ++
    flat_map (penStroke p) (penSegments (prevCdcX st, prevCdcY st) samples).
Proof.
  induction samples as [|[[cx cy] ci] samples IH]; intros st.
  - cbn. rewrite app_nil_r. reflexivity.
  - cbn [fold_left]. rewrite IH. unfold strokeStep, penSegments at 2.
    fold penSegments. cbn [snd fst prevCdcX prevCdcY ctxCalls gridPoint].
    destruct (ci =? 1).
    + rewrite flat_map_app, <- app_assoc. reflexivity.
    + reflexivity.
Qed.

Lemma strokeLoop_segments (p : StrokePlacement) (samples : list VectorCoord) :
  strokeLoop p samples = flat_map (penStroke p) (penSegments (0, 0) samples).
Proof. unfold strokeLoop. rewrite strokeLoop_from. reflexivity. Qed.

Lemma after_proper_segments (s : list VectorCoord) : forall prev,
  filter properSegment (penSegments (gridPoint prev) (Reference.after prev s)) =
  filter properSegment (penSegments (gridPoint prev) s).
Proof.
  induction s as [|c s IH]; intros prev; [reflexivity|].
  cbn [Reference.after penSegments].
  destruct (decide (c = prev)) as [->|Hne].
  - rewrite IH, filter_app.
    assert (Hdot : filter properSegment
                     (if prev.2 =? 1 then [(gridPoint prev, gridPoint prev)] else []) = []).
    { destruct (prev.2 =? 1); [|reflexivity].
      unfold filter; cbn. unfold properSegment. cbn [fst snd].
      rewrite bool_decide_eq_true_2 by reflexivity. reflexivity. }
    rewrite Hdot. reflexivity.
  - cbn [penSegments]. rewrite !filter_app, IH. reflexivity.
Qed.

(** X9.  [drawCharacterStrokes] strokes one segment per sample of
    intensity 1, from the grid point of the sample before it (the origin
    for the first) to its own, as a path of its own, and issues nothing for
    the other samples.  The repeat removal it applies first only drops
    segments whose two end points coincide: the segments with distinct end
    points are those of the unsimplified vector data, in the same order. *)
Theorem drawCharacterStrokes_segments (cdcRomBinary : RomTable) (char : string)
    (p : StrokePlacement) :
  let vectorData := getCharacterVector cdcRomBinary char in
  drawCharacterStrokes cdcRomBinary char p =
    flat_map (penStroke p) (penSegments (0, 0) (simplifyVector vectorData)) /\
  filter properSegment (penSegments (0, 0) (simplifyVector vectorData)) =
    filter properSegment (penSegments (0, 0) vectorData).
Proof.
  cbn zeta. unfold drawCharacterStrokes. split.
  - destruct (simplifyVector _) eqn:E; [reflexivity|].
    rewrite <- E. apply strokeLoop_segments.
  - unfold simplifyVector. rewrite deduplicateAdjacent_remove_repeats.
    destruct (getCharacterVector cdcRomBinary char) as [|c s]; [reflexivity|].
    cbn [Reference.remove_repeats penSegments]. rewrite !filter_app.
    rewrite (after_proper_segments s c). reflexivity.
Qed.

Lemma penSegments_beam_off (s : list VectorCoord) : forall prev,
  Forall beam_off s -> penSegments prev s = [].
Proof.
  induction s as [|c s IH]; intros prev Hs; [reflexivity|].
  apply Forall_cons in Hs as [Hc Hs]. cbn [penSegments].
  destruct (Z.eqb_spec c.2 1) as [Hon|_]; [contradiction|].
  apply IH, Hs.
Qed.

(** X10.  A character whose samples all have the beam off issues no
    canvas call at all: no path is begun and the pen is never moved. *)
Theorem drawCharacterStrokes_blank (cdcRomBinary : RomTable) (char : string)
    (p : StrokePlacement) :
  Forall beam_off (getCharacterVector cdcRomBinary char) ->
  drawCharacterStrokes cdcRomBinary char p = [].
Proof.
  intros Hoff. unfold drawCharacterStrokes.
  destruct (simplifyVector _) eqn:E; [reflexivity|]. rewrite <- E.
  rewrite strokeLoop_segments. unfold simplifyVector.
  rewrite deduplicateAdjacent_remove_repeats.
  rewrite (penSegments_beam_off _ _ (remove_repeats_beam_off _ Hoff)). reflexivity.
Qed.

Lemma drawCharacterStrokes_blank_witness :
  drawCharacterStrokes (fun _ => Some [16; 16; 4]) "A" (mkPlacement 0 0 8 1 1 1 16) = [].
Proof.
  apply drawCharacterStrokes_blank.
  change (Forall beam_off [(0, 1, 0); (0, 2, 0); (1, 2, 0)]).
  repeat (apply Forall_cons_2; [unfold beam_off; cbn; lia|]). apply Forall_nil_2.
Defined.

End VectorStrokes.

(** ** Physics pipeline: what each output depends on *)

Section PhysicsStructure.

Lemma subsample_loop_prefix sx sy beam xc yc xg yg rz (n : nat) st :
  filteredPositions st `prefix_of`
    filteredPositions (Nat.iter n (subsampleStep sx sy beam xc yc xg yg rz) st).
Proof.
  induction n as [|n IH]; [reflexivity|].
  rewrite Nat.iter_succ. etrans; [exact IH|].
  unfold subsampleStep at 1. cbn [applyBiquad filteredPositions].
  apply prefix_app_r. reflexivity.
Qed.

Lemma physics_rows_prefix n cs xc yc xg yg rz rows : forall st,
  filteredPositions st `prefix_of`
    filteredPositions (fold_left (physicsRow n cs xc yc xg yg rz) rows st).
Proof.
  induction rows as [|[[rx ry] rb] rows IH]; intros st; [reflexivity|].
  cbn [fold_left]. etrans; [|apply IH].
  unfold physicsRow. apply subsample_loop_prefix.
Qed.

(** X11.  The pipeline is causal: the positions computed for the first
    samples of a sequence are a prefix of those computed for the whole
    sequence, so later samples never change earlier output. *)
Theorem processCharacterPhysics_prefix
    (vectorData more : list VectorCoord) (subsampleFactor : Z) (xyCoeffs : BiquadCoeffs)
    (retentionZ characterScale : float) (options : PhysicsOptions) :
  processCharacterPhysics vectorData subsampleFactor xyCoeffs retentionZ
      characterScale options
  `prefix_of`
  processCharacterPhysics (vectorData ++ more) subsampleFactor xyCoeffs retentionZ
      characterScale options.
Proof.
  destruct vectorData as [|[[fx fy] fb] rest]; [apply prefix_nil|].
  unfold processCharacterPhysics. cbn [app].
  rewrite (app_comm_cons rest more), fold_left_app.
  apply physics_rows_prefix.
Qed.

Lemma map_eq_Forall2 {A B} (f : A -> B) (l l' : list A) :
  map f l = map f l' -> Forall2 (fun a b => f a = f b) l l'.
Proof.
  revert l'. induction l as [|a l IH]; intros [|b l'] Heq; try discriminate Heq.
  - constructor.
  - injection Heq as Hab Hl. constructor; [exact Hab | apply IH, Hl].
Qed.

Lemma iter_related {A} (R : A -> A -> Prop) (f g : A -> A) (n : nat) :
  (forall a b, R a b -> R (f a) (g b)) ->
  forall a b, R a b -> R (Nat.iter n f a) (Nat.iter n g b).
Proof.
  intros Hstep a b Hab. induction n as [|n IH]; [exact Hab|].
  rewrite !Nat.iter_succ. apply Hstep, IH.
Qed.

Lemma fold_related {A B} (R : A -> A -> Prop) (Q : B -> B -> Prop) (f g : A -> B -> A) :
  (forall a b r r', R a b -> Q r r' -> R (f a r) (g b r')) ->
  forall l l', Forall2 Q l l' ->
  forall a b, R a b -> R (fold_left f l a) (fold_left g l' b).
Proof.
  intros Hstep l l' Hl. induction Hl as [|r r' l l' Hr _ IH]; intros a b Hab; [exact Hab|].
  cbn [fold_left]. apply IH, Hstep; assumption.
Qed.

Lemma physics_rows_sameX n cs xc xg yc yc' yg yg' rz rz' (v v' : list VectorCoord) :
  map (fun s : VectorCoord => s.1.1) v = map (fun s : VectorCoord => s.1.1) v' ->
  forall st st', sameX st st' ->
  sameX (fold_left (physicsRow n cs xc yc xg yg rz) v st)
        (fold_left (physicsRow n cs xc yc' xg yg' rz') v' st').
Proof.
  intros Hv. apply (fold_related sameX _ _ _ ) with (2 := map_eq_Forall2 _ _ _ Hv).
  intros a b [[rx ry] rb] [[rx' ry'] rb'] Hab Hr. cbn [fst] in Hr. subst rx'.
  unfold physicsRow. apply iter_related; [|exact Hab].
  intros a0 b0 [Hs Ht]. unfold subsampleStep, sameX.
  cbn [applyBiquad xState filteredPositions]. rewrite !map_app, Hs, Ht. auto.
Qed.

Lemma physics_rows_sameY n cs xc xc' xg xg' yc yg rz rz' (v v' : list VectorCoord) :
  map (fun s : VectorCoord => s.1.2) v = map (fun s : VectorCoord => s.1.2) v' ->
  forall st st', sameY st st' ->
  sameY (fold_left (physicsRow n cs xc yc xg yg rz) v st)
        (fold_left (physicsRow n cs xc' yc xg' yg rz') v' st').
Proof.
  intros Hv. apply (fold_related sameY _ _ _ ) with (2 := map_eq_Forall2 _ _ _ Hv).
  intros a b [[rx ry] rb] [[rx' ry'] rb'] Hab Hr. cbn [fst snd] in Hr. subst ry'.
  unfold physicsRow. apply iter_related; [|exact Hab].
  intros a0 b0 [Hs Ht]. unfold subsampleStep, sameY.
  cbn [applyBiquad yState filteredPositions]. rewrite !map_app, Hs, Ht. auto.
Qed.

Lemma physics_rows_sameZ n cs cs' xc xc' xg xg' yc yc' yg yg' rz (v v' : list VectorCoord) :
  map (fun s : VectorCoord => s.2) v = map (fun s : VectorCoord => s.2) v' ->
  forall st st', sameZ st st' ->
  sameZ (fold_left (physicsRow n cs xc yc xg yg rz) v st)
        (fold_left (physicsRow n cs' xc' yc' xg' yg' rz) v' st').
Proof.
  intros Hv. apply (fold_related sameZ _ _ _ ) with (2 := map_eq_Forall2 _ _ _ Hv).
  intros a b [[rx ry] rb] [[rx' ry'] rb'] Hab Hr. cbn [snd] in Hr. subst rb'.
  unfold physicsRow. apply iter_related; [|exact Hab].
  intros a0 b0 [Hs Ht]. unfold subsampleStep, sameZ.
  cbn [applyBiquad zState filteredPositions]. rewrite !map_app, Hs, Ht. auto.
Qed.

(** X12.  The three output channels are computed independently.  The x
    trace depends only on the x coordinates, the X coefficients, the X gain
    and the scale; the y trace only on the y coordinates, the Y
    coefficients in force, the Y gain and the scale; the z trace only on
    the beam values and the retention.  Two runs that agree on those agree
    on that channel, whatever else differs. *)
Theorem processCharacterPhysics_channels_independent
    (v v' : list VectorCoord) (subsampleFactor : Z) (xyCoeffs xyCoeffs' : BiquadCoeffs)
    (retentionZ retentionZ' characterScale characterScale' : float)
    (options options' : PhysicsOptions) :
  let run := processCharacterPhysics v subsampleFactor xyCoeffs retentionZ
               characterScale options in
  let run' := processCharacterPhysics v' subsampleFactor xyCoeffs' retentionZ'
                characterScale' options' in
  (map (fun s : VectorCoord => s.1.1) v = map (fun s : VectorCoord => s.1.1) v' ->
   xyCoeffs = xyCoeffs' -> xGain options = xGain options' ->
   characterScale = characterScale' ->
   map x run = map x run') /\
  (map (fun s : VectorCoord => s.1.2) v = map (fun s : VectorCoord => s.1.2) v' ->
   default xyCoeffs (yCoeffs options) = default xyCoeffs' (yCoeffs options') ->
   yGain options = yGain options' ->
   characterScale = characterScale' ->
   map y run = map y run') /\
  (map (fun s : VectorCoord => s.2) v = map (fun s : VectorCoord => s.2) v' ->
   retentionZ = retentionZ' ->
   map z run = map z run').
Proof.
  cbn zeta. unfold processCharacterPhysics. split; [|split].
  - intros Hv <- Hg <-.
    destruct v as [|[[fx fy] fb] rest], v' as [|[[fx' fy'] fb'] rest'];
      try discriminate Hv; [reflexivity|].
    rewrite Hg. apply physics_rows_sameX; [exact Hv|].
    injection Hv as -> _. split; reflexivity.
  - intros Hv Hc Hg <-.
    destruct v as [|[[fx fy] fb] rest], v' as [|[[fx' fy'] fb'] rest'];
      try discriminate Hv; [reflexivity|].
    rewrite Hg, Hc. apply physics_rows_sameY; [exact Hv|].
    injection Hv as -> _. split; reflexivity.
  - intros Hv <-.
    destruct v as [|[[fx fy] fb] rest], v' as [|[[fx' fy'] fb'] rest'];
      try discriminate Hv; [reflexivity|].
    apply physics_rows_sameZ; [exact Hv|].
    injection Hv as -> _. split; reflexivity.
Qed.

Lemma applyIIR_no_retention (b zs : Z) :
  (b = 0 \/ b = 1) -> (zs = 0 \/ zs = 1) ->
  applyIIR (JS.of_Z b) (JS.of_Z zs) 0 = JS.of_Z b.
Proof. intros [-> | ->] [-> | ->]; reflexivity. Qed.

Lemma subsample_loop_no_retention sx sy (b : Z) xc yc xg yg (n : nat) :
  (b = 0 \/ b = 1) ->
  forall st, (exists zs, (zs = 0 \/ zs = 1) /\ zState st = JS.of_Z zs) ->
  let st' := Nat.iter n (subsampleStep sx sy (JS.of_Z b) xc yc xg yg 0) st in
  (exists zs, (zs = 0 \/ zs = 1) /\ zState st' = JS.of_Z zs) /\
  map z (filteredPositions st') =
    map z (filteredPositions st) ++ replicate n (JS.of_Z b).
Proof.
  intros Hb st Hst. cbn zeta. induction n as [|n [(zs & Hzs & Hz) IH]].
  - split; [exact Hst|]. cbn. rewrite app_nil_r. reflexivity.
  - rewrite Nat.iter_succ. unfold subsampleStep at 1 3.
    cbn [applyBiquad zState filteredPositions].
    rewrite Hz, (applyIIR_no_retention b zs Hb Hzs). split.
    + exists b. auto.
    + rewrite map_app, IH, <- app_assoc. cbn [map z].
      f_equal. change (JS.of_Z b :: replicate n (JS.of_Z b))
        with (replicate (S n) (JS.of_Z b)).
      rewrite replicate_S_end. reflexivity.
Qed.

Lemma physics_rows_no_retention n cs xc yc xg yg (rows : list VectorCoord) :
  Forall (fun s : VectorCoord => s.2 = 0 \/ s.2 = 1) rows ->
  forall st, (exists zs, (zs = 0 \/ zs = 1) /\ zState st = JS.of_Z zs) ->
  map z (filteredPositions (fold_left (physicsRow n cs xc yc xg yg 0) rows st)) =
    map z (filteredPositions st) ++
    flat_map (fun s : VectorCoord => replicate (Z.to_nat n) (JS.of_Z s.2)) rows.
Proof.
  induction rows as [|[[rx ry] rb] rows IH]; intros Hrows st Hst.
  - cbn. rewrite app_nil_r. reflexivity.
  - apply Forall_cons in Hrows as [Hb Hrows]. cbn [snd] in Hb.
    cbn [fold_left flat_map]. unfold physicsRow at 2.
    destruct (subsample_loop_no_retention (JS.of_Z rx * cs)%float (JS.of_Z ry * cs)%float
                rb xc yc xg yg (Z.to_nat n) Hb st Hst) as [Hst' Htrace].
    cbn zeta in Hst', Htrace.
    rewrite (IH Hrows _ Hst'), Htrace, <- app_assoc. reflexivity.
Qed.

(** X13.  With retention 0 the intensity channel is unfiltered: for beam
    values 0 and 1 the z trace is each sample's beam value, held for the
    [subsampleFactor] positions of that sample. *)
Theorem processCharacterPhysics_no_retention
    (vectorData : list VectorCoord) (subsampleFactor : Z) (xyCoeffs : BiquadCoeffs)
    (characterScale : float) (options : PhysicsOptions) :
  Forall (fun s : VectorCoord => s.2 = 0 \/ s.2 = 1) vectorData ->
  map z (processCharacterPhysics vectorData subsampleFactor xyCoeffs 0
           characterScale options) =
    flat_map (fun s : VectorCoord => replicate (Z.to_nat subsampleFactor) (JS.of_Z s.2))
      vectorData.
Proof.
  intros Hv. unfold processCharacterPhysics.
  destruct vectorData as [|[[fx fy] fb] rest] eqn:E; [reflexivity|].
  rewrite <- E in *. rewrite physics_rows_no_retention.
  - reflexivity.
  - exact Hv.
  - exists fb. split; [|reflexivity].
    rewrite E in Hv. apply Forall_cons in Hv as [Hb _]. exact Hb.
Qed.

Lemma processCharacterPhysics_no_retention_witness :
  map z (processCharacterPhysics [(0, 0, 1); (0, 1, 1); (1, 1, 0)] 2
           (mkCoeffs 0.25 0.5 0.25 0 0) 0 1 (mkOptions None None None)) =
    [1; 1; 1; 1; 0; 0]%float.
Proof.
  apply (processCharacterPhysics_no_retention [(0, 0, 1); (0, 1, 1); (1, 1, 0)] 2
           (mkCoeffs 0.25 0.5 0.25 0 0) 1 (mkOptions None None None)).
  repeat (apply Forall_cons_2; [cbn; lia|]). apply Forall_nil_2.
Defined.

End PhysicsStructure.

(** ** Gaussian renderer: the kernel cache across an atlas *)

Section GaussianAtlas.

Context `{HostMath}.





Lemma fold_left_nested {A} (f : A -> Z -> Z -> A) (cols : list Z) (rows : list Z) :
  forall a,
  fold_left (fun acc row => fold_left (fun acc col => f acc row col) cols acc) rows a =
  fold_left (fun acc rc => f acc rc.1 rc.2)
    (flat_map (fun row => map (pair row) cols) rows) a.
Proof.
  assert (Hrow : forall row a,
            fold_left (fun acc col => f acc row col) cols a =
            fold_left (fun acc rc => f acc rc.1 rc.2) (map (pair row) cols) a).
  { intros row. induction cols as [|col cols IHc]; intros a; [reflexivity|].
    cbn [map fold_left fst snd]. apply IHc. }
  induction rows as [|row rows IH]; intros a; [reflexivity|].
  cbn [fold_left flat_map]. rewrite fold_left_app, IH, Hrow. reflexivity.
Qed.



End GaussianAtlas.

(** ** Gaussian kernel: shape of a fresh weight table *)

Section KernelShape.

Context `{HostMath}.





End KernelShape.


(** ** Checkerboard *)

Section Checkerboard.

Lemma fold_left_collect {A B} (P : A -> bool) (g : A -> B) (l : list A) :
  forall acc,
  fold_left (fun acc a => if P a then acc ++ [g a] else acc) l acc =
    acc ++ map g (List.filter P l).
Proof.
  induction l as [|a l IH]; intros acc; [cbn; rewrite app_nil_r; reflexivity|].
  cbn [fold_left List.filter]. rewrite IH.
  destruct (P a); [cbn [map]; rewrite <- app_assoc|]; reflexivity.
Qed.

Lemma drawCheckerboard_filter (size : Z) :
  drawCheckerboard size =
    map (fun rc : Z * Z => (rc.2, rc.1))
      (List.filter (fun rc : Z * Z => Z.rem (rc.2 + rc.1) 2 =? 0)
         (flat_map (fun y => map (pair y) (range_below size)) (range_below size))).
Proof.
  unfold drawCheckerboard.
  rewrite (fold_left_nested
             (fun calls y x => if Z.rem (x + y) 2 =? 0 then calls ++ [(x, y)] else calls)).
  exact (fold_left_collect (fun rc : Z * Z => Z.rem (rc.2 + rc.1) 2 =? 0)
           (fun rc : Z * Z => (rc.2, rc.1)) _ []).
Qed.

Lemma drawCheckerboard_elem (size x y : Z) :
  (x, y) ∈ drawCheckerboard size <->
  0 <= x < size /\ 0 <= y < size /\ Z.even (x + y) = true.
Proof.
  rewrite drawCheckerboard_filter, list_elem_of_In, in_map_iff.
  split.
  - intros ([y' x'] & [= <- <-] & Hin). cbn [fst snd] in *.
    apply filter_In in Hin as [Hin Hrem]. cbn [fst snd] in Hrem.
    apply in_flat_map in Hin as (y0 & Hy0 & Hin).
    apply in_map_iff in Hin as (x0 & [= <- <-] & Hx0).
    apply list_elem_of_In, elem_of_range_below in Hy0.
    apply list_elem_of_In, elem_of_range_below in Hx0.
    repeat split; try lia.
    apply Z.eqb_eq in Hrem. rewrite Z.rem_mod_nonneg in Hrem by lia.
    rewrite Zmod_even in Hrem. destruct (Z.even (x0 + y0)); [reflexivity|discriminate].
  - intros (Hx & Hy & Heven). exists (y, x). split; [reflexivity|].
    apply filter_In. split.
    + apply in_flat_map. exists y. split.
      * apply list_elem_of_In, elem_of_range_below. lia.
      * apply in_map, list_elem_of_In, elem_of_range_below. lia.
    + cbn [fst snd]. apply Z.eqb_eq. rewrite Z.rem_mod_nonneg by lia.
      rewrite Zmod_even, Heven. reflexivity.
Qed.

Lemma grid_NoDup (rows cols : list Z) :
  NoDup rows -> NoDup cols ->
  NoDup (flat_map (fun y => map (pair y) cols) rows).
Proof.
  intros Hrows Hcols. induction Hrows as [|y rows Hy Hrows IH]; [constructor|].
  cbn [flat_map]. apply NoDup_app. split; [|split; [|exact IH]].
  - apply (NoDup_fmap_2 (pair y)), Hcols.
  - intros [y' x'] Hin Hin'.
    apply list_elem_of_In, in_map_iff in Hin as (x0 & [= <- <-] & _).
    apply list_elem_of_In, in_flat_map in Hin' as (y0 & Hy0 & Hin').
    apply in_map_iff in Hin' as (x1 & [= -> _] & _).
    apply Hy, list_elem_of_In, Hy0.
Qed.

(** X17.  [drawCheckerboard] fills exactly the cells (x, y) of the
    size x size square whose x + y is even, each once; so the corner (0,0)
    is filled whenever the square is not empty, and no two filled cells
    share an edge. *)
Theorem drawCheckerboard_cells (size : Z) :
  (forall x y : Z,
      (x, y) ∈ drawCheckerboard size <->
      0 <= x < size /\ 0 <= y < size /\ Z.even (x + y) = true) /\
  NoDup (drawCheckerboard size) /\
  (forall x y : Z,
      (x, y) ∈ drawCheckerboard size ->
      ((x + 1, y) ∉ drawCheckerboard size) /\ ((x, y + 1) ∉ drawCheckerboard size)).
Proof.
  split; [intros x y; apply drawCheckerboard_elem|]. split.
  - rewrite drawCheckerboard_filter.
    apply (NoDup_fmap_2_strong (fun rc : Z * Z => (rc.2, rc.1))).
    + intros [a b] [c d] _ _ [= -> ->]. reflexivity.
    + apply NoDup_ListNoDup, List.NoDup_filter, NoDup_ListNoDup, grid_NoDup;
        apply NoDup_seqZ.
  - intros x y Hin. apply drawCheckerboard_elem in Hin as (_ & _ & Heven).
    split; intros Hin'; apply drawCheckerboard_elem in Hin' as (_ & _ & Heven').
    + replace (x + 1 + y) with (Z.succ (x + y)) in Heven' by lia.
      rewrite Z.even_succ, <- Z.negb_even, Heven in Heven'. discriminate.
    + replace (x + (y + 1)) with (Z.succ (x + y)) in Heven' by lia.
      rewrite Z.even_succ, <- Z.negb_even, Heven in Heven'. discriminate.
Qed.

End Checkerboard.

(** ** Gaussian renderer: the buffer a character is accumulated in *)

Section RenderBuffer.

Context `{HostMath}.




End RenderBuffer.

(** ** Gaussian renderer: the alpha channel *)

Section AlphaChannel.

Lemma SFcompare_refl (a : spec_float) :
  a <> S754_nan -> SFcompare a a = Some Eq.
Proof.
  destruct a as [s|s| |s m e]; intros Hnan; try contradiction;
    try (destruct s; reflexivity).
  destruct s; cbn; rewrite Z.compare_refl, Pos.compare_cont_refl; reflexivity.
Qed.

Lemma leb_not_nan (a v : float) : (a <=? v)%float = true -> is_nan v = false.
Proof.
  intros Hle. unfold is_nan. rewrite FloatAxioms.eqb_spec. rewrite leb_spec in Hle.
  unfold SFeqb. unfold SFleb in Hle.
  destruct (Prim2SF v) eqn:Ev;
    try (rewrite SFcompare_refl by discriminate; reflexivity).
  destruct (Prim2SF a) as [s|s| |s m e]; try destruct s; discriminate Hle.
Qed.

Lemma leb_not_ltb (a v : float) : (a <=? v)%float = true -> (v <? a)%float = false.
Proof.
  rewrite leb_spec, ltb_spec. unfold SFleb, SFltb.
  rewrite (SFcompare_antisym (Prim2SF a) (Prim2SF v)).
  destruct (SFcompare (Prim2SF a) (Prim2SF v)) as [[]|]; cbn; congruence.
Qed.

Lemma Math_min_one (v : float) :
  (1 <=? v)%float = true -> JSNumber.Math_min 1 v = 1%float.
Proof.
  intros Hle. unfold JSNumber.Math_min.
  rewrite (leb_not_nan 1 v Hle), (leb_not_ltb 1 v Hle).
  change (is_nan 1) with false. change (is_zero 1) with false. cbn [orb andb].
  destruct (1 <? v)%float; reflexivity.
Qed.

Lemma Uint8Clamped_store_range (x : float) :
  0 <= JSNumber.Uint8Clamped_store x <= 255.
Proof.
  unfold JSNumber.Uint8Clamped_store.
  destruct (Prim2SF x) as [s|s| |s m e]; try destruct s; try lia.
  destruct (0 <=? e) eqn:He.
  - apply Z.leb_le in He. pose proof (Z.pow_nonneg 2 e ltac:(lia)). nia.
  - apply Z.leb_gt in He. cbv zeta.
    assert (Hd : 0 < 2 ^ (- e)) by (apply Z.pow_pos_nonneg; lia).
    pose proof (Z.div_pos (Z.pos m) (2 ^ (- e)) ltac:(lia) Hd) as Hq.
    destruct (2 * (Z.pos m mod 2 ^ (- e)) <? 2 ^ (- e));
      [|destruct (2 ^ (- e) <? 2 * (Z.pos m mod 2 ^ (- e)));
        [|destruct (Z.even (Z.pos m / 2 ^ (- e)))]]; lia.
Qed.

(** X19.  The alpha byte [transferToCanvas] stores for a buffer cell is
    always in 0..255; it saturates at 255 for every accumulated intensity
    of 1 or more, +infinity included, and is 0 for a cell holding NaN, 0
    or -infinity. *)
Theorem transferToCanvas_alpha_saturates :
  (forall v : float, 0 <= transferToCanvas_alpha v <= 255) /\
  (forall v : float, (1 <=? v)%float = true -> transferToCanvas_alpha v = 255) /\
  transferToCanvas_alpha infinity = 255 /\
  transferToCanvas_alpha nan = 0 /\
  transferToCanvas_alpha 0 = 0 /\
  transferToCanvas_alpha neg_infinity = 0.
Proof.
  split; [intros v; apply Uint8Clamped_store_range|].
  split; [|repeat split; reflexivity].
  intros v Hle. unfold transferToCanvas_alpha. cbv zeta.
  rewrite (Math_min_one v Hle). reflexivity.
Qed.

End AlphaChannel.

(** ** The physics pipeline before and after it moved to physics.js *)

Section SharedPhysics.

Lemma iter_pos_shr_1_52 (m : positive) :
  SpecFloat.iter_pos shr_1 52 (Build_shr_record (Zpos (Pos.iter xO m 52)) false false) =
  Build_shr_record (Zpos m) false false.
Proof. reflexivity. Qed.

Lemma digits2_pos_shift (m : positive) :
  Zpos (digits2_pos (Pos.iter xO m 52)) = Zpos (digits2_pos m) + 52.
Proof. cbn [Pos.iter digits2_pos]. rewrite !Pos2Z.inj_succ. lia. Qed.

(** Multiplying a binary64 mantissa by 2^52 and the exponent by 2^-52
    rounds back to the number itself. *)
Lemma SF64mul_one (s : bool) (m : positive) (e : Z) :
  bounded prec emax m e = true ->
  SF64mul (S754_finite s m e) (Prim2SF 1) = S754_finite s m e.
Proof.
  intros Hb. unfold bounded, canonical_mantissa in Hb.
  apply andb_true_iff in Hb as [Hc He]. apply Z.eqb_eq in Hc.
  change (Prim2SF 1) with (S754_finite false 4503599627370496 (-52)).
  unfold SF64mul, SFmul.
  assert (Hm : (m * 4503599627370496)%positive = Pos.iter xO m 52).
  { change 4503599627370496%positive with (Pos.iter xO 1%positive 52).
    cbn [Pos.iter]. rewrite !Pos.mul_xO_r, Pos.mul_1_r. reflexivity. }
  rewrite Hm, xorb_false_r.
  unfold binary_round_aux, shr_fexp. unfold Zdigits2 at 1.
  rewrite digits2_pos_shift.
  replace (Z.pos (digits2_pos m) + 52 + (e + -52)) with (Z.pos (digits2_pos m) + e) by lia.
  rewrite Hc.
  replace (e - (e + -52)) with 52 by lia.
  cbn [shr shr_record_of_loc].
  rewrite iter_pos_shr_1_52.
  cbn [shr_m loc_of_shr_record round_nearest_even shr_record_of_loc Zdigits2].
  replace (e + -52 + 52) with e by lia.
  rewrite Hc, Z.sub_diag. cbn [shr shr_m]. rewrite He. reflexivity.
Qed.

(** A gain of 1 changes no number: not NaN, an infinity, a zero of either
    sign, or a subnormal. *)
Lemma mul_one (v : float) : (v * 1)%float = v.
Proof.
  apply Prim2SF_inj. rewrite mul_spec.
  pose proof (Prim2SF_valid v) as Hv.
  destruct (Prim2SF v) as [s|s| |s m e].
  - destruct s; reflexivity.
  - destruct s; reflexivity.
  - reflexivity.
  - apply SF64mul_one, Hv.
Qed.

Lemma subsampleStep_no_options sx sy beam c rz st :
  subsampleStep sx sy beam c c 1 1 rz st = CrtMode.subsampleStep sx sy beam c rz st.
Proof.
  unfold subsampleStep, CrtMode.subsampleStep. cbn [applyBiquad].
  rewrite !mul_one. reflexivity.
Qed.

Lemma physicsRow_no_options n cs c rz st row :
  physicsRow n cs c c 1 1 rz st row = CrtMode.physicsRow n cs c rz st row.
Proof.
  destruct row as [[rx ry] rb]. unfold physicsRow, CrtMode.physicsRow.
  induction (Z.to_nat n) as [|k IH]; [reflexivity|].
  rewrite !Nat.iter_succ, IH. apply subsampleStep_no_options.
Qed.

(** X20.  Called without options, as the CRT renderer calls it, the
    shared [processCharacterPhysics] of physics.js returns exactly the
    positions the renderer's own earlier version returned: the Y filter
    falls back to the X coefficients, and the default gains of 1.0 change
    no computed number, NaN and the infinities included. *)
Theorem processCharacterPhysics_no_options
    (vectorData : list VectorCoord) (subsampleFactor : Z) (xyCoeffs : BiquadCoeffs)
    (retentionZ characterScale : float) :
  processCharacterPhysics vectorData subsampleFactor xyCoeffs retentionZ characterScale
    (mkOptions None None None) =
  CrtMode.processCharacterPhysics vectorData subsampleFactor xyCoeffs retentionZ
    characterScale.
Proof.
  unfold processCharacterPhysics, CrtMode.processCharacterPhysics.
  destruct vectorData as [|[[fx fy] fb] rest] eqn:E; [reflexivity|].
  rewrite <- E. cbn [yCoeffs xGain yGain default]. f_equal.
  generalize (mkPhysics (createBiquadState (JS.of_Z fx * characterScale))
                (createBiquadState (JS.of_Z fy * characterScale)) (JS.of_Z fb) []).
  clear E. induction vectorData as [|row rows IH]; intros st; [reflexivity|].
  cbn [fold_left]. rewrite physicsRow_no_options. apply IH.
Qed.

End SharedPhysics.

(** ** Gaussian renderer: a character that never turns the beam on *)

Section DarkCharacter.

Context `{HostMath}.





End DarkCharacter.


(** ** Vector renderer: strokes stay on the character grid *)

Section StrokesOnGrid.

Lemma decodeRows_onGrid (ws : list Z) : forall st,
  Forall (fun s : VectorCoord => onGrid (gridPoint s)) (vectorData st) ->
  Forall (fun s : VectorCoord => onGrid (gridPoint s)) (vectorData (decodeRows st ws)).
Proof.
  induction ws as [|w ws IH]; intros st Hst; [exact Hst|].
  change (decodeRows st (w :: ws)) with (decodeRows (decodeRow st w) ws).
  apply IH. pose proof (decodeRow_unfold st w) as Hu. cbn zeta in Hu.
  destruct (withinBounds _ _) eqn:E in Hu; rewrite Hu; cbn [vectorData]; [|exact Hst].
  apply withinBounds_spec in E.
  apply Forall_app. split; [exact Hst|].
  constructor; [|constructor]. unfold onGrid, gridPoint, CDC_CHAR_MAX_COORD. cbn [fst snd].
  exact E.
Qed.

Lemma getCharacterVector_onGrid (cdcRomBinary : RomTable) (char : string) :
  Forall (fun s : VectorCoord => onGrid (gridPoint s))
    (getCharacterVector cdcRomBinary char).
Proof.
  unfold getCharacterVector.
  destruct (getCharacterBinary cdcRomBinary char) as [binaryData|]; [|constructor].
  rewrite binaryToVector_locals. apply decodeRows_onGrid. constructor.
Qed.

Lemma after_Forall (P : VectorCoord -> Prop) (s : list VectorCoord) : forall prev,
  Forall P s -> Forall P (Reference.after prev s).
Proof.
  induction s as [|c s IH]; intros prev Hs; [constructor|].
  apply Forall_cons in Hs as [Hc Hs]. cbn [Reference.after].
  destruct (decide (c = prev)); [|constructor; [exact Hc|]]; apply IH, Hs.
Qed.

Lemma penSegments_onGrid (samples : list VectorCoord) : forall prev,
  onGrid prev ->
  Forall (fun s : VectorCoord => onGrid (gridPoint s)) samples ->
  Forall (fun seg : (Z * Z) * (Z * Z) => onGrid seg.1 /\ onGrid seg.2)
    (penSegments prev samples).
Proof.
  induction samples as [|c samples IH]; intros prev Hprev Hs; [constructor|].
  apply Forall_cons in Hs as [Hc Hs]. cbn [penSegments].
  apply Forall_app. split; [|apply IH; assumption].
  destruct (c.2 =? 1); [|constructor].
  constructor; [split; assumption|constructor].
Qed.

(** X22.  The vector renderer never leaves the character grid: every
    [moveTo] and [lineTo] that [drawCharacterStrokes] issues goes to the
    canvas image, under [cdcToCanvasX] and [cdcToCanvasY], of a grid point
    with both coordinates in 0..6, whatever the ROM holds. *)
Theorem drawCharacterStrokes_on_grid (cdcRomBinary : RomTable) (char : string)
    (p : StrokePlacement) :
  Forall (targetsGrid p) (drawCharacterStrokes cdcRomBinary char p).
Proof.
  unfold drawCharacterStrokes.
  destruct (simplifyVector _) eqn:E; [constructor|]. rewrite <- E. clear E.
  rewrite strokeLoop_segments.
  assert (Hsegs : Forall (fun seg : (Z * Z) * (Z * Z) => onGrid seg.1 /\ onGrid seg.2)
                    (penSegments (0, 0)
                       (simplifyVector (getCharacterVector cdcRomBinary char)))).
  { apply penSegments_onGrid.
    - unfold onGrid, CDC_CHAR_MAX_COORD. cbn. lia.
    - unfold simplifyVector. rewrite deduplicateAdjacent_remove_repeats.
      pose proof (getCharacterVector_onGrid cdcRomBinary char) as Hv.
      destruct (getCharacterVector cdcRomBinary char) as [|c s]; [constructor|].
      apply Forall_cons in Hv as [Hc Hs]. cbn [Reference.remove_repeats].
      constructor; [exact Hc | apply after_Forall, Hs]. }
  induction Hsegs as [|[from to] segs [Hfrom Hto] _ IH]; [constructor|].
  cbn [flat_map]. apply Forall_app. split; [|exact IH].
  unfold penStroke. cbn [fst snd].
  repeat constructor.
  - exists from. auto.
  - exists to. auto.
Qed.

End StrokesOnGrid.

(** ** Gaussian renderer: what one spot deposits *)

Section SpotProfile.

Context `{HostMath}.


End SpotProfile.

